(** * Email/Phone Hunter: a shallow embedding of [src/app.py]

    The crawler of [app.py] is embedded as pure functions over an explicit
    crawl state.  Everything the program obtains from the outside (HTTP
    responses, robots.txt downloads, the HTML and PDF parsers, the clock)
    is read from a [World] record of oracles, so that the control flow of
    [main] is a deterministic step function that can be evaluated.

    Conventions.
    - A Python [str] is a [string]; its characters are the code points
      U+0000..U+00FF (Latin-1), on which [str.lower], [str.isspace] and the
      regular-expression classes are modelled exactly.
    - A Python [int] is a [Z].
    - A Python [set] of strings is a [gset string]; the insertion-ordered
      [dict] [emails_best] is an association list, the robots cache (whose
      order is never observed) a [gmap].
    - [urlparse] is modelled on the inputs on which CPython does not raise
      [ValueError]. *)

From Stdlib Require Import ZArith Lia Ascii String List Bool Permutation Sorted.
From stdpp Require Import base gmap sets list strings.

Local Open Scope string_scope.
Local Open Scope Z_scope.

(** ** Characters *)

Definition code (c : ascii) : N := N_of_ascii c.

Definition in_range (lo hi : N) (c : ascii) : bool :=
  ((lo <=? code c) && (code c <=? hi))%N.

Definition is_ascii_upper (c : ascii) : bool := in_range 65 90 c.
Definition is_ascii_lower (c : ascii) : bool := in_range 97 122 c.
Definition is_ascii_alpha (c : ascii) : bool := is_ascii_upper c || is_ascii_lower c.
Definition is_ascii_digit (c : ascii) : bool := in_range 48 57 c.

(** [str.lower] on one code point: [A-Z] and the Latin-1 capitals
    U+00C0..U+00DE (without the multiplication sign U+00D7) move up by 32. *)
Definition lower_ascii (c : ascii) : ascii :=
  if is_ascii_upper c || (in_range 192 222 c && negb (code c =? 215)%N)
  then ascii_of_N (code c + 32)
  else c.

(** [str.isspace] on one code point. *)
Definition is_space (c : ascii) : bool :=
  in_range 9 13 c || in_range 28 32 c || (code c =? 133)%N || (code c =? 160)%N.

(** The regular-expression class [\w] (Unicode mode): alphanumeric code
    points and the underscore. *)
Definition is_word (c : ascii) : bool :=
  is_ascii_alpha c || is_ascii_digit c || (code c =? 95)%N
  || (code c =? 170)%N || (code c =? 178)%N || (code c =? 179)%N
  || (code c =? 181)%N || (code c =? 185)%N || (code c =? 186)%N
  || in_range 188 190 c
  || (in_range 192 255 c && negb (code c =? 215)%N && negb (code c =? 247)%N).

(** ** Python [str] primitives *)

Fixpoint str_mem (c : ascii) (s : string) : bool :=
  match s with
  | "" => false
  | String d s' => if Ascii.eqb c d then true else str_mem c s'
  end.

Fixpoint str_lower (s : string) : string :=
  match s with
  | "" => ""
  | String c s' => String (lower_ascii c) (str_lower s')
  end.

Fixpoint lstrip_by (p : ascii -> bool) (s : string) : string :=
  match s with
  | "" => ""
  | String c s' => if p c then lstrip_by p s' else s
  end.

Fixpoint rstrip_by (p : ascii -> bool) (s : string) : string :=
  match s with
  | "" => ""
  | String c s' =>
      match rstrip_by p s' with
      | "" => if p c then "" else String c ""
      | r => String c r
      end
  end.

Definition strip_by (p : ascii -> bool) (s : string) : string :=
  rstrip_by p (lstrip_by p s).

(** [s.strip()] and [s.strip(chars)]. *)
Definition str_strip (s : string) : string := strip_by is_space s.
Definition str_strip_chars (chars s : string) : string :=
  strip_by (fun c => str_mem c chars) s.

Fixpoint str_take (n : nat) (s : string) : string :=
  match n, s with
  | S k, String c s' => String c (str_take k s')
  | _, _ => ""
  end.

Fixpoint str_drop (n : nat) (s : string) : string :=
  match n, s with
  | S k, String _ s' => str_drop k s'
  | _, _ => s
  end.

Fixpoint str_startswith (s p : string) : bool :=
  match p, s with
  | "", _ => true
  | String a p', String b s' => Ascii.eqb a b && str_startswith s' p'
  | String _ _, "" => false
  end.

Definition str_endswith (s suf : string) : bool :=
  (String.length suf <=? String.length s)%nat
  && String.eqb (str_drop (String.length s - String.length suf) s) suf.

(** [s.find(sub)], with [None] for Python's [-1]. *)
Fixpoint str_find (sub s : string) : option nat :=
  if str_startswith s sub then Some 0%nat
  else match s with
       | "" => None
       | String _ s' => option_map S (str_find sub s')
       end.

(** [sub in s]. *)
Definition str_contains (sub s : string) : bool :=
  match str_find sub s with Some _ => true | None => false end.

(** [s.split(sep, 1)] for a one-character separator: [None] when the
    separator does not occur (Python then returns the one-element list
    [[s]]), otherwise the text before and after its first occurrence. *)
Fixpoint split_once (sep : ascii) (s : string) : option (string * string) :=
  match s with
  | "" => None
  | String c s' =>
      if Ascii.eqb c sep then Some ("", s')
      else match split_once sep s' with
           | Some (a, b) => Some (String c a, b)
           | None => None
           end
  end.

(** [s.split(sep, 1)[0]]. *)
Definition split_head (sep : ascii) (s : string) : string :=
  match split_once sep s with Some (a, _) => a | None => s end.

(** [s.replace(old, new)] for a non-empty [old]; [skip] counts the
    characters of the occurrence of [old] that is being dropped. *)
Fixpoint replace_go (old new s : string) (skip : nat) : string :=
  match s with
  | "" => ""
  | String c s' =>
      match skip with
      | S k => replace_go old new s' k
      | O =>
          if str_startswith s old
          then new +:+ replace_go old new s' (String.length old - 1)
          else String c (replace_go old new s' 0)
      end
  end.

Definition str_replace (old new s : string) : string := replace_go old new s 0.

(** [s.split()]: the maximal runs of non-whitespace characters. *)
Fixpoint split_ws_go (cur : option string) (s : string) : list string :=
  match s with
  | "" => match cur with Some w => [String.rev w] | None => [] end
  | String c s' =>
      if is_space c
      then match cur with
           | Some w => String.rev w :: split_ws_go None s'
           | None => split_ws_go None s'
           end
      else split_ws_go (Some (String c (default "" cur))) s'
  end.

Definition str_split_ws (s : string) : list string := split_ws_go None s.

(** [sep.join(l)]. *)
Fixpoint str_join (sep : string) (l : list string) : string :=
  match l with
  | [] => ""
  | [w] => w
  | w :: l' => w +:+ sep +:+ str_join sep l'
  end.

(** ** Pattern matchers: [EMAIL_RE] and [normalize_email] *)

(** The two bracket classes of [EMAIL_RE] under the [(?i)] flag:
    [[A-Z0-9._%+\-]] and [[A-Z0-9.\-]]; [[A-Z]] is [is_ascii_alpha]. *)
Definition is_local_char (c : ascii) : bool :=
  is_ascii_alpha c || is_ascii_digit c || str_mem c "._%+-".
Definition is_host_char (c : ascii) : bool :=
  is_ascii_alpha c || is_ascii_digit c || str_mem c ".-".

Fixpoint str_all (p : ascii -> bool) (s : string) : bool :=
  match s with
  | "" => true
  | String c s' => p c && str_all p s'
  end.

(** The language of [EMAIL_RE] read as a whole-string pattern (the two
    [\b] assertions only restrict where a match may sit in a text):
    [local @ host . tld]. *)
Definition EMAIL_RE (x : string) : Prop :=
  exists loc host tld : string,
    x = loc +:+ "@" +:+ host +:+ "." +:+ tld
    /\ loc <> "" /\ str_all is_local_char loc = true
    /\ host <> "" /\ str_all is_host_char host = true
    /\ (2 <= String.length tld)%nat /\ str_all is_ascii_alpha tld = true.

(** Length of the longest prefix whose characters satisfy [p]: what a
    greedy [[...]+] consumes first. *)
Fixpoint span_len (p : ascii -> bool) (s : string) : nat :=
  match s with
  | "" => O
  | String c s' => if p c then S (span_len p s') else O
  end.

Definition str_head (s : string) : option ascii :=
  match s with "" => None | String c _ => Some c end.

Definition word_at (o : option ascii) : bool :=
  match o with Some c => is_word c | None => false end.

(** [\b] between the character [prev] and the text [s]. *)
Definition boundary (prev : option ascii) (s : string) : bool :=
  xorb (word_at prev) (word_at (str_head s)).

(** The backtracking of [[A-Z0-9.\-]+\.[A-Z]{2,}\b] over the text [h]
    that follows the first host character: the host class gives back
    characters from the right, so the rightmost dot that is followed by
    a maximal run of at least two letters ending at a word boundary
    closes the match.  The result is the number of characters of [h] in
    the match. *)
Fixpoint host_end (h : string) : option nat :=
  match h with
  | "" => None
  | String c h' =>
      if is_host_char c then
        match host_end h' with
        | Some n => Some (S n)
        | None =>
            let m := span_len is_ascii_alpha h' in
            if Ascii.eqb c "." && (2 <=? m)%nat
               && negb (word_at (str_head (str_drop m h')))
            then Some (S m) else None
        end
      else None
  end.

(** One match attempt of [EMAIL_RE] at the start of [s], where [prev] is
    the character of the text before [s]. *)
Definition match_at (prev : option ascii) (s : string) : option string :=
  if boundary prev s then
    let n1 := span_len is_local_char s in
    match n1, str_drop n1 s with
    | S _, String a (String c0 h) =>
        if Ascii.eqb a "@" && is_host_char c0 then
          match host_end h with
          | Some n => Some (str_take (n1 + 2 + n) s)
          | None => None
          end
        else None
    | _, _ => None
    end
  else None.

(** [EMAIL_RE.finditer]: the non-overlapping matches from left to right;
    [skip] counts the characters of the last match still to be passed. *)
Fixpoint finditer_go (prev : option ascii) (s : string) (skip : nat) : list string :=
  match s with
  | "" => []
  | String c s' =>
      match skip with
      | S k => finditer_go (Some c) s' k
      | O =>
          match match_at prev s with
          | Some m => m :: finditer_go (Some c) s' (String.length m - 1)
          | None => finditer_go (Some c) s' 0
          end
      end
  end.

Definition EMAIL_RE_finditer (text : string) : list string :=
  finditer_go None text 0.

(** The characters removed by the second [strip] of [normalize_email]:
    the six marks [.,;:!?], the double quote (code 34), the apostrophe and
    the round, square, curly and angle brackets. *)
Definition PUNCT : string := ".,;:!?" +:+ String "034"%char "'()[]{}<>".

Definition normalize_email (e : string) : string :=
  str_lower (str_strip_chars PUNCT (str_strip e)).

(** ** Scope policy *)

(** The generator [host == d or host.endswith("." + d)]. *)
Definition suffix_match (host d : string) : bool :=
  String.eqb host d || str_endswith host ("." +:+ d).

Definition domain_allowed (host : string) (allowed_suffixes : gset string) : bool :=
  let host := str_lower host in
  existsb (suffix_match host) (elements allowed_suffixes).

(** [email.split("@", 1)[1]], defined when [email] contains an [@]. *)
Definition after_at (email : string) : option string :=
  snd <$> split_once "@" email.

Definition email_matches_allowed (email : string) (allowed_suffixes : gset string) : bool :=
  match after_at email with
  | None => false
  | Some d =>
      let dom := str_lower d in
      existsb (suffix_match dom) (elements allowed_suffixes)
  end.

Definition extract_emails (text : string) (allowed : gset string) : gset string :=
  if String.eqb text "" then ∅
  else
    foldl (fun hits m =>
             let email := normalize_email m in
             if email_matches_allowed email allowed then {[ email ]} ∪ hits else hits)
          ∅ (EMAIL_RE_finditer text).

(** ** [urllib.parse.urlparse]: the scheme and netloc components *)

Record ParseResult := { scheme : string; netloc : string }.

Fixpoint str_filter (p : ascii -> bool) (s : string) : string :=
  match s with
  | "" => ""
  | String c s' => if p c then String c (str_filter p s') else str_filter p s'
  end.

Definition is_scheme_char (c : ascii) : bool :=
  is_ascii_alpha c || is_ascii_digit c || str_mem c "+-.".

Definition is_netloc_delim (c : ascii) : bool := str_mem c "/?#".

(** [urlsplit]: leading C0 controls and spaces are stripped, tabs and
    line breaks removed; a prefix of scheme characters that starts with
    a letter and ends at the first colon is the (lowercased) scheme; after
    a double slash the netloc runs up to the first of [/], [?] and [#]. *)
Definition urlparse (url : string) : ParseResult :=
  let url := lstrip_by (fun c => (code c <=? 32)%N) url in
  let url := str_filter (fun c => negb (str_mem c (String "009" (String "013" (String "010" ""))))) url in
  let '(sch, rest) :=
    match split_once ":" url with
    | Some (String c0 pre, rest) =>
        if is_ascii_alpha c0 && str_all is_scheme_char (String c0 pre)
        then (str_lower (String c0 pre), rest)
        else ("", url)
    | _ => ("", url)
    end in
  let nl :=
    if str_startswith rest "//"
    then let r := str_drop 2 rest in
         str_take (span_len (fun c => negb (is_netloc_delim c)) r) r
    else "" in
  {| scheme := sch; netloc := nl |}.

Definition is_http_scheme (s : string) : bool :=
  String.eqb s "http" || String.eqb s "https".

(** Text after the last occurrence of [sep] ([rpartition]), the whole
    string when there is none. *)
Fixpoint after_last (sep : ascii) (s : string) : string :=
  match s with
  | "" => ""
  | String c s' =>
      if str_mem sep s' then after_last sep s'
      else if Ascii.eqb c sep then s' else s
  end.

(** The [hostname] property of a parse result: the netloc without user
    information and port, lowercased ([None] when it is empty). *)
Definition hostname (p : ParseResult) : option string :=
  let hostinfo := after_last "@" (netloc p) in
  let h :=
    match split_once "[" hostinfo with
    | Some (_, bracketed) => split_head "]" bracketed
    | None => split_head ":" hostinfo
    end in
  if String.eqb h "" then None
  else match split_once "%" h with
       | Some (a, zone) => Some (str_lower a +:+ "%" +:+ zone)
       | None => Some (str_lower h)
       end.

(** ** [urllib.robotparser.RobotFileParser] (standard library)

    The rule table built by [parse] is kept abstract: [entries ua url] is
    the verdict of the user-agent search at the end of [can_fetch], [None]
    when that search raises. [last_checked] records whether [modified]
    has run (the attribute is then a non-zero time). *)
Record RobotFileParser := {
  disallow_all : bool;
  allow_all : bool;
  last_checked : bool;
  entries : string -> string -> option bool
}.

(** [RobotFileParser()]: no entries, both flags off, [last_checked = 0]. *)
Definition RobotFileParser_new : RobotFileParser :=
  {| disallow_all := false; allow_all := false; last_checked := false;
     entries := fun _ _ => Some true |}.

(** What [urlopen] on the robots.txt URL does inside [read]. *)
Inductive ReadOutcome :=
| ReadRaises                      (* URLError, timeout, undecodable body: [read] raises *)
| ReadHTTPError (err_code : Z)    (* HTTPError, handled inside [read] *)
| ReadParsed (rules : string -> string -> option bool).

(** [rp.read()]: the parser after the call (an exception leaves it as
    it was) and whether the call raised. *)
Definition rp_read (o : ReadOutcome) (rp : RobotFileParser) : RobotFileParser * bool :=
  match o with
  | ReadRaises => (rp, true)
  | ReadHTTPError c =>
      if (c =? 401) || (c =? 403) then
        ({| disallow_all := true; allow_all := allow_all rp;
            last_checked := last_checked rp; entries := entries rp |}, false)
      else if (400 <=? c) && (c <? 500) then
        ({| disallow_all := disallow_all rp; allow_all := true;
            last_checked := last_checked rp; entries := entries rp |}, false)
      else (rp, false)
  | ReadParsed rules =>
      ({| disallow_all := disallow_all rp; allow_all := allow_all rp;
          last_checked := true; entries := rules |}, false)
  end.

(** [rp.can_fetch(useragent, url)]; [None] when it raises. *)
Definition rp_can_fetch (rp : RobotFileParser) (ua url : string) : option bool :=
  if disallow_all rp then Some false
  else if allow_all rp then Some true
  else if negb (last_checked rp) then Some false
  else entries rp ua url.

(** ** The outside world *)

Record Response := {
  status_code : Z;
  resp_url : string;        (* [resp.url], the final URL after redirects *)
  content_type : string;    (* [resp.headers.get("Content-Type", "")] *)
  resp_text : string;
  resp_content : string
}.

Inductive GetOutcome := GetRaises | GetOk (resp : Response).

(** What the program reads off a parsed document. *)
Record Soup := {
  soup_title : option string;     (* [t.get_text(strip=True)] of the first title element *)
  soup_text : string;             (* [soup.get_text(separator=" ", strip=True)] *)
  soup_mailto : list string;      (* the [href] of every anchor selected by the mailto selector *)
  soup_hrefs : list string        (* the [href] of every anchor that has one *)
}.

Record World := {
  http_get : nat -> string -> GetOutcome;   (* [s.get(url)], the n-th request of the session *)
  robots_read : string -> ReadOutcome;      (* [urlopen] of a robots.txt URL *)
  BeautifulSoup : string -> Soup;
  urljoin : string -> string -> string;
  PDF_OK : bool;
  pdf_extract_text : string -> option string;  (* [None] when pdfminer raises *)
  PHONE_RE_findall : string -> list string;
  utcnow : nat -> string                    (* [now_iso()] at the n-th reading of the clock *)
}.

(** ** Politeness gate *)

Definition load_robots (w : World) (origin ua : string)
    (robots_cache : gmap string RobotFileParser)
  : RobotFileParser * gmap string RobotFileParser :=
  match robots_cache !! origin with
  | Some rp => (rp, robots_cache)
  | None =>
      let rp := fst (rp_read (robots_read w (origin +:+ "/robots.txt")) RobotFileParser_new) in
      (rp, <[origin := rp]> robots_cache)
  end.

Definition can_fetch (w : World) (robots_cache : gmap string RobotFileParser)
    (url ua : string) (honor_robots : bool)
  : bool * gmap string RobotFileParser :=
  if negb honor_robots then (true, robots_cache)
  else
    let p := urlparse url in
    if negb (is_http_scheme (scheme p)) || String.eqb (netloc p) ""
    then (false, robots_cache)
    else
      let '(rp, cache) := load_robots w (scheme p +:+ "://" +:+ netloc p) ua robots_cache in
      match rp_can_fetch rp ua url with
      | Some ok => (ok, cache)
      | None => (true, cache)
      end.

(** ** Content dispatcher *)

Definition is_content_html (ct : string) : bool :=
  let ct := str_lower ct in
  str_contains "text/html" ct || str_contains "application/xhtml" ct.

Definition is_content_pdf (ct : string) : bool :=
  let ct := str_lower ct in
  str_contains "application/pdf" ct || str_endswith ct "/pdf".

Definition title_of (soup : Soup) : string :=
  str_take 140 (default "" (soup_title soup)).

Definition SNIP_LEN : nat := 160.

Definition snippet_around (text needle : string) : string :=
  if String.eqb text "" then ""
  else match str_find (str_lower needle) (str_lower text) with
       | None => ""
       | Some i =>
           let start := (i - SNIP_LEN / 2)%nat in
           let stop := Nat.min (String.length text)
                               (i + String.length needle + SNIP_LEN / 2) in
           str_join " " (str_split_ws (str_take (stop - start) (str_drop start text)))
       end.

Definition extract_phones (w : World) (text : string) : gset string :=
  if String.eqb text "" then ∅
  else
    let raw : gset string := list_to_set (map str_strip (PHONE_RE_findall w text)) in
    foldl (fun cleaned p =>
             let p2 := str_filter (fun c => is_ascii_digit c || Ascii.eqb c "+") p in
             let digits := str_filter is_ascii_digit p2 in
             if (8 <=? String.length digits)%nat then {[ p ]} ∪ cleaned else cleaned)
          ∅ (elements raw).

Definition handle_html (w : World) (resp_text base_url : string) (depth max_depth : Z)
  : string * string * list string :=
  let soup := BeautifulSoup w resp_text in
  let page_title := title_of soup in
  let page_text :=
    foldl (fun page_text href =>
             let email := split_head "?" (str_replace "mailto:" "" href) in
             page_text +:+ " " +:+ email)
          (soup_text soup) (soup_mailto soup) in
  let out_links :=
    if depth <? max_depth then map (urljoin w base_url) (soup_hrefs soup) else [] in
  (page_title, page_text, out_links).

Definition handle_pdf (w : World) (content : string) : string :=
  if negb (PDF_OK w) then ""
  else default "" (pdf_extract_text w content).

(** ** Records, configuration and crawl state *)

Record Rec := {
  r_type : string;
  r_value : string;
  r_domain : string;
  r_source_url : string;
  r_source_type : string;
  r_page_title : string;
  r_snippet : string;
  r_first_seen : string
}.

(** The parsed command line; [user_agent] is the User-Agent header of the
    session built by [make_client]. *)
Record Config := {
  domains : list string;
  start_urls : list string;
  max_pages : Z;
  max_depth : Z;            (* [args.depth] *)
  include_pdfs : bool;
  include_phones : bool;
  honor_robots : string;
  external_follow : bool;
  user_agent : string
}.

Definition allowed (cfg : Config) : gset string :=
  list_to_set (map str_lower
    (List.filter (fun d => negb (String.eqb (str_strip d) "")) (domains cfg))).

Definition honor (cfg : Config) : bool :=
  String.eqb (str_lower (honor_robots cfg)) "true".

(** The locals of [main] that live across loop iterations.  [requests]
    is the log of the URLs passed to [s.get], oldest first, and [clock]
    the number of readings of the clock so far. *)
Record State := {
  queue : list (string * Z);
  seen_urls : gset string;
  results : list Rec;
  emails_best : list (string * Rec);
  pages : Z;
  robots_cache : gmap string RobotFileParser;
  requests : list string;
  clock : nat
}.

(** The insertion-ordered dictionary [emails_best]. *)
Fixpoint dict_get (k : string) (d : list (string * Rec)) : option Rec :=
  match d with
  | [] => None
  | (k', v) :: d' => if String.eqb k k' then Some v else dict_get k d'
  end.

(** [if email not in emails_best: emails_best[email] = rec]. *)
Definition record_email (email : string) (rec : Rec) (d : list (string * Rec))
  : list (string * Rec) :=
  match dict_get email d with
  | Some _ => d
  | None => (d ++ [(email, rec)])%list
  end.

Definition source_type_of (page_title : string) : string :=
  if String.eqb page_title "(PDF)" then "pdf" else "html".

Definition email_rec (email url page_title page_text now : string) : Rec :=
  {| r_type := "email"; r_value := email;
     r_domain := default "" (after_at email);
     r_source_url := url;
     r_source_type := source_type_of page_title;
     r_page_title := page_title;
     r_snippet := snippet_around page_text email;
     r_first_seen := now |}.

Definition phone_rec (ph url page_title page_text now : string) : Rec :=
  {| r_type := "phone"; r_value := ph; r_domain := "";
     r_source_url := url;
     r_source_type := source_type_of page_title;
     r_page_title := page_title;
     r_snippet := snippet_around page_text ph;
     r_first_seen := now |}.

Definition info_rec (now : string) : Rec :=
  {| r_type := "info"; r_value := "no_hits"; r_domain := "";
     r_source_url := ""; r_source_type := ""; r_page_title := "";
     r_snippet := "No emails/phones matched. Try --external-follow, --include-pdfs, --include-phones, a real browser UA, smaller depth, different seeds.";
     r_first_seen := now |}.

(** How one iteration of the crawl loop ends: at one of its five
    [continue] statements or at the end of the body. *)
Inductive Outcome :=
| SkipSeen | SkipRobots | SkipFetchError | SkipStatus | SkipUnsupported | Processed.

(** ** The crawl loop of [main] *)

Section Crawl.
Context (cfg : Config) (w : World).

Definition with_queue (q : list (string * Z)) (st : State) : State :=
  {| queue := q; seen_urls := seen_urls st; results := results st;
     emails_best := emails_best st; pages := pages st;
     robots_cache := robots_cache st; requests := requests st;
     clock := clock st |}.

(** The seeds accepted into the queue before the loop. *)
Definition init : State :=
  {| queue := map (fun u => (u, 0))
                (List.filter (fun u => is_http_scheme (scheme (urlparse u))) (start_urls cfg));
     seen_urls := ∅; results := []; emails_best := []; pages := 0;
     robots_cache := ∅; requests := []; clock := O |}.

(** The [if]/[elif]/[else] on the content type: title, text and
    outbound links, or [None] for an unsupported type. *)
Definition dispatch (resp : Response) (depth : Z) : option (string * string * list string) :=
  let ct := str_lower (content_type resp) in
  if is_content_html ct then
    Some (handle_html w (resp_text resp) (resp_url resp) depth (max_depth cfg))
  else if include_pdfs cfg && is_content_pdf ct then
    Some ("(PDF)", handle_pdf w (resp_content resp), [])
  else None.

(** The test applied to each outbound link [nxt]. *)
Definition link_accepted (seen : gset string) (nxt : string) : bool :=
  if bool_decide (nxt ∈ seen) then false
  else
    let p := urlparse nxt in
    if negb (is_http_scheme (scheme p)) then false
    else external_follow cfg || domain_allowed (netloc p) (allowed cfg).

Definition filtered_links (seen : gset string) (depth : Z) (out_links : list string)
  : list string :=
  if depth <? max_depth cfg then List.filter (link_accepted seen) out_links else [].

(** The loop over [extract_emails(page_text, allowed)]: every email
    builds its record (reading the clock) and is stored if absent. *)
Definition record_emails (url page_title page_text : string) (emails : list string)
    (acc : list (string * Rec) * nat) : list (string * Rec) * nat :=
  foldl (fun '(best, clk) email =>
           (record_email email
              (email_rec email url page_title page_text (utcnow w clk)) best,
            S clk))
        acc emails.

Definition record_phones (url page_title page_text : string) (phones : list string)
    (acc : list Rec * nat) : list Rec * nat :=
  foldl (fun '(res, clk) ph =>
           ((res ++ [phone_rec ph url page_title page_text (utcnow w clk)])%list, S clk))
        acc phones.

(** The body of the [while] loop for the popped work item
    [(url0, depth)]; [st] is the state after [popleft]. *)
Definition loop_body (url0 : string) (depth : Z) (st : State) : Outcome * State :=
  if bool_decide (url0 ∈ seen_urls st) then (SkipSeen, st)
  else
    let seen := {[ url0 ]} ∪ seen_urls st in
    let '(ok, cache) :=
      if honor cfg
      then can_fetch w (robots_cache st) url0 (user_agent cfg) true
      else (true, robots_cache st) in
    if negb ok then
      (SkipRobots,
       {| queue := queue st; seen_urls := seen; results := results st;
          emails_best := emails_best st; pages := pages st;
          robots_cache := cache; requests := requests st; clock := clock st |})
    else
      let reqs := (requests st ++ [url0])%list in
      let skip (o : Outcome) :=
        (o, {| queue := queue st; seen_urls := seen; results := results st;
               emails_best := emails_best st; pages := pages st;
               robots_cache := cache; requests := reqs; clock := clock st |}) in
      match http_get w (List.length (requests st)) url0 with
      | GetRaises => skip SkipFetchError
      | GetOk resp =>
          if negb (status_code resp =? 200) then skip SkipStatus
          else
            match dispatch resp depth with
            | None => skip SkipUnsupported
            | Some (page_title, page_text, out_links) =>
                let links := filtered_links seen depth out_links in
                let '(best, clk) :=
                  record_emails (resp_url resp) page_title page_text
                    (elements (extract_emails page_text (allowed cfg)))
                    (emails_best st, clock st) in
                let '(res, clk) :=
                  if include_phones cfg
                  then record_phones (resp_url resp) page_title page_text
                         (elements (extract_phones w page_text)) (results st, clk)
                  else (results st, clk) in
                (Processed,
                 {| queue := (queue st ++ map (fun nxt => (nxt, depth + 1)) links)%list;
                    seen_urls := seen; results := res; emails_best := best;
                    pages := pages st + 1; robots_cache := cache;
                    requests := reqs; clock := clk |})
            end
      end.

(** One turn of [while queue and pages < args.max_pages]; [None] when
    the loop condition fails. *)
Definition step (st : State) : option (Outcome * State) :=
  match queue st with
  | [] => None
  | (url0, depth) :: q =>
      if pages st <? max_pages cfg
      then Some (loop_body url0 depth (with_queue q st))
      else None
  end.

(** At most [fuel] turns of the loop. *)
Fixpoint crawl (fuel : nat) (st : State) : State :=
  match fuel with
  | O => st
  | S n => match step st with
           | Some (_, st') => crawl n st'
           | None => st
           end
  end.

(** The code between the loop and the CSV writer: the email records
    join [results], and an empty list gets the sentinel record. *)
Definition finalize (st : State) : list Rec :=
  let res := (results st ++ map snd (emails_best st))%list in
  match res with
  | [] => [info_rec (utcnow w (clock st))]
  | _ => res
  end.

(** The sort key of the CSV writer and [sorted] (a stable sort). *)
Definition type_rank (t : string) : Z :=
  if String.eqb t "email" then 0
  else if String.eqb t "phone" then 1
  else if String.eqb t "info" then 2 else 9.

Definition key_leb (a b : Rec) : bool :=
  (type_rank (r_type a) <? type_rank (r_type b))
  || ((type_rank (r_type a) =? type_rank (r_type b))
      && String.leb (r_value a) (r_value b)).

Fixpoint insert_sorted (x : Rec) (l : list Rec) : list Rec :=
  match l with
  | [] => [x]
  | y :: l' => if key_leb y x then y :: insert_sorted x l' else x :: l
  end.

Definition sorted (l : list Rec) : list Rec :=
  foldl (fun acc x => insert_sorted x acc) [] l.

(** The rows written to the CSV file by a crawl of at most [fuel]
    loop turns. *)
Definition main (fuel : nat) : list Rec :=
  sorted (finalize (crawl fuel init)).

End Crawl.

(** ** A small site to run the crawler on

    The seed page of [a.example.com] names one address in its text and
    one in a mail link, and links to a page on [b.example.com] (which
    repeats the first address and links back), to a page on another port
    and to a foreign site. *)

Definition ex_cfg : Config :=
  {| domains := ["Example.com"]; start_urls := ["http://a.example.com"; "ftp://a.example.com"];
     max_pages := 10; max_depth := 1;
     include_pdfs := false; include_phones := false;
     honor_robots := "true"; external_follow := false;
     user_agent := "Mozilla" |}.

Definition ex_page_a : Response :=
  {| status_code := 200; resp_url := "http://a.example.com";
     content_type := "text/html; charset=utf-8";
     resp_text := "page a"; resp_content := "" |}.

Definition ex_page_b : Response :=
  {| status_code := 200; resp_url := "http://b.example.com/page";
     content_type := "text/html";
     resp_text := "page b"; resp_content := "" |}.

Definition ex_soup (html : string) : Soup :=
  if String.eqb html "page a" then
    {| soup_title := Some "Contact";
       soup_text := "contact: Jane <Jane@Example.com> or eve@evil.org";
       soup_mailto := ["mailto:info@example.com?subject=hi"];
       soup_hrefs := ["mailto:info@example.com?subject=hi"; "http://b.example.com/page";
                      "http://example.com:8080/page"; "http://evil.org/"] |}
  else if String.eqb html "page b" then
    {| soup_title := Some "Team";
       soup_text := "write to jane@example.com";
       soup_mailto := [];
       soup_hrefs := ["http://a.example.com"; "http://b.example.com/more"] |}
  else {| soup_title := None; soup_text := ""; soup_mailto := []; soup_hrefs := [] |}.

Definition ex_world : World :=
  {| http_get := fun _ url =>
       if String.eqb url "http://a.example.com" then GetOk ex_page_a
       else if String.eqb url "http://b.example.com/page" then GetOk ex_page_b
       else GetRaises;
     robots_read := fun _ => ReadHTTPError 404;
     BeautifulSoup := ex_soup;
     urljoin := fun _ href => href;
     PDF_OK := false;
     pdf_extract_text := fun _ => None;
     PHONE_RE_findall := fun _ => [];
     utcnow := fun n => if Nat.eqb n 0 then "2024-01-01T00:00:00Z"
                        else if Nat.eqb n 1 then "2024-01-01T00:00:01Z"
                        else "2024-01-01T00:00:02Z" |}.

(** The same crawl with a negative [--depth]. *)
Definition ex_cfg_negative_depth : Config :=
  {| domains := ["Example.com"]; start_urls := ["http://a.example.com"];
     max_pages := 10; max_depth := -1;
     include_pdfs := false; include_phones := false;
     honor_robots := "true"; external_follow := false;
     user_agent := "Mozilla" |}.

(** The same site when the seed page is served with status 201. *)
Definition ex_page_a_created : Response :=
  {| status_code := 201; resp_url := "http://a.example.com";
     content_type := "text/html; charset=utf-8";
     resp_text := "page a"; resp_content := "" |}.

Definition ex_world_created : World :=
  {| http_get := fun _ url =>
       if String.eqb url "http://a.example.com" then GetOk ex_page_a_created
       else GetRaises;
     robots_read := robots_read ex_world;
     BeautifulSoup := ex_soup;
     urljoin := urljoin ex_world;
     PDF_OK := false;
     pdf_extract_text := pdf_extract_text ex_world;
     PHONE_RE_findall := PHONE_RE_findall ex_world;
     utcnow := utcnow ex_world |}.

(** The same site when its robots.txt cannot be downloaded (the
    connection fails, so [urlopen] raises [URLError]). *)
Definition ex_world_robots_down : World :=
  {| http_get := http_get ex_world;
     robots_read := fun _ => ReadRaises;
     BeautifulSoup := ex_soup;
     urljoin := urljoin ex_world;
     PDF_OK := false;
     pdf_extract_text := pdf_extract_text ex_world;
     PHONE_RE_findall := PHONE_RE_findall ex_world;
     utcnow := utcnow ex_world |}.

(** ** Predicates used in the statements *)

(** The characters a match of [EMAIL_RE] is made of. *)
Definition is_email_char (c : ascii) : bool := is_local_char c || Ascii.eqb c "@".

Definition is_punct (c : ascii) : bool := str_mem c PUNCT.

(** The last character of a string. *)
Fixpoint str_last (s : string) : option ascii :=
  match s with
  | "" => None
  | String c "" => Some c
  | String _ s' => str_last s'
  end.

(** Case-insensitive comparison of a domain with a scope entry. *)
Definition ci_eq (a b : string) : Prop := str_lower a = str_lower b.
Definition ci_endswith (a b : string) : Prop :=
  exists p, str_lower a = p +:+ str_lower b.

(** [dom] equals a member of [S] or ends with a dot followed by a
    member of [S], ignoring case. *)
Definition in_scope (dom : string) (S : gset string) : Prop :=
  exists d, d ∈ S /\ (ci_eq dom d \/ ci_endswith dom ("." +:+ d)).

(** The request log has no duplicate and lies within the visited set. *)
Definition requests_inv (st : State) : Prop :=
  NoDup (requests st) /\ forall u, u ∈ requests st -> u ∈ seen_urls st.

(** Every queued work item has a depth between 0 and [max 0 d]. *)
Definition depth_inv (cfg : Config) (st : State) : Prop :=
  forall u k, (u, k) ∈ queue st -> 0 <= k <= Z.max 0 (max_depth cfg).

Definition is_email_rec (r : Rec) : bool := String.eqb (r_type r) "email".

(** A stored email record: its value is lowercase, its domain field is
    the text after the first [@] of the value, and that domain equals a
    member of [S] or ends with a dot followed by a member of [S]. *)
Definition email_rec_ok (S : gset string) (r : Rec) : Prop :=
  str_lower (r_value r) = r_value r
  /\ exists loc dom,
       r_value r = loc +:+ "@" +:+ dom /\ str_mem "@" loc = false
       /\ r_domain r = dom
       /\ exists d, d ∈ S /\ (dom = d \/ exists p, dom = p +:+ "." +:+ d).

Definition best_inv (S : gset string) (d : list (string * Rec)) : Prop :=
  NoDup (map fst d)
  /\ forall k r, (k, r) ∈ d ->
       r_type r = "email" /\ r_value r = k
       /\ r_domain r = default "" (after_at k)
       /\ exists text, k ∈ extract_emails text S.

Definition results_inv (res : list Rec) : Prop :=
  forall r, r ∈ res -> r_type r = "phone".

(** The invariant of the two result collections of [main]. *)
Definition store_inv (cfg : Config) (st : State) : Prop :=
  best_inv (allowed cfg) (emails_best st) /\ results_inv (results st).

(** ** Further predicates and examples *)

(** The order of the CSV rows: [key_leb] as a relation. *)
Definition key_le (a b : Rec) : Prop := key_leb a b = true.

(** The frontier holds at most two consecutive depth levels, the
    shallower one first. *)
Definition bfs_inv (st : State) : Prop :=
  exists (d : Z) (l1 l2 : list (string * Z)),
    queue st = (l1 ++ l2)%list
    /\ (forall x, x ∈ l1 -> snd x = d)
    /\ (forall x, x ∈ l2 -> snd x = d + 1).


(** The number of decimal digits that [extract_phones] counts. *)
Definition phone_digits (p : string) : nat :=
  String.length (str_filter is_ascii_digit p).

(** What every email or phone row carries besides its value. *)
Definition row_ok (r : Rec) : Prop :=
  (r_type r = "email" \/ (r_type r = "phone" /\ r_domain r = ""))
  /\ (String.length (r_page_title r) <= 140)%nat
  /\ ((r_source_type r = "pdf" /\ r_page_title r = "(PDF)")
      \/ (r_source_type r = "html" /\ r_page_title r <> "(PDF)"))
  /\ (String.length (r_snippet r) <= String.length (r_value r) + SNIP_LEN)%nat.

(** Every stored record is a well-formed row. *)
Definition rows_inv (st : State) : Prop :=
  (forall k r, (k, r) ∈ emails_best st -> row_ok r)
  /\ (forall r, r ∈ results st -> row_ok r).

(** [UA_POOL] and the User-Agent header set by [make_client]:
    [user_agent or random.choice(UA_POOL)], where [pick] is the index
    drawn by [random.choice]. *)
Definition UA_POOL : list string :=
  [ "Mozilla/5.0 (Windows NT 10.0; Win64; x64) AppleWebKit/537.36 (KHTML, like Gecko) Chrome/127.0.0.0 Safari/537.36";
    "Mozilla/5.0 (Macintosh; Intel Mac OS X 13_6) AppleWebKit/605.1.15 (KHTML, like Gecko) Version/17.4 Safari/605.1.15";
    "Mozilla/5.0 (X11; Linux x86_64) AppleWebKit/537.36 (KHTML, like Gecko) Chrome/127.0.0.0 Safari/537.36" ].

Definition make_client_user_agent (user_agent : option string) (pick : nat) : string :=
  match user_agent with
  | Some ua => if String.eqb ua "" then nth (pick mod List.length UA_POOL) UA_POOL "" else ua
  | None => nth (pick mod List.length UA_POOL) UA_POOL ""
  end.

(** A site that serves one PDF while pdfminer is not installed. *)
Definition ex_cfg_pdf : Config :=
  {| domains := ["example.com"]; start_urls := ["http://a.example.com/doc.pdf"];
     max_pages := 10; max_depth := 1;
     include_pdfs := true; include_phones := true;
     honor_robots := "false"; external_follow := false;
     user_agent := "Mozilla" |}.

Definition ex_page_pdf : Response :=
  {| status_code := 200; resp_url := "http://a.example.com/doc.pdf";
     content_type := "Application/PDF";
     resp_text := ""; resp_content := "%PDF-1.4 jane@example.com" |}.

Definition ex_world_pdf : World :=
  {| http_get := fun _ url =>
       if String.eqb url "http://a.example.com/doc.pdf" then GetOk ex_page_pdf
       else GetRaises;
     robots_read := fun _ => ReadRaises;
     BeautifulSoup := ex_soup;
     urljoin := fun _ href => href;
     PDF_OK := false;
     pdf_extract_text := fun _ => Some "jane@example.com";
     PHONE_RE_findall := fun text =>
       if String.eqb text "" then [] else [" +1 (555) 010-2030 "; "2024"; "555 0102"];
     utcnow := fun _ => "2024-01-01T00:00:00Z" |}.

(** * Properties *)

(** ** Characters: facts checked on all 256 code points *)

Ltac all_ascii c := destruct c as [[] [] [] [] [] [] [] []]; vm_compute; try reflexivity; try discriminate.

Lemma lower_ascii_idem c : lower_ascii (lower_ascii c) = lower_ascii c.
Proof. all_ascii c. Qed.

Lemma lower_ascii_at c : Ascii.eqb (lower_ascii c) "@" = Ascii.eqb c "@".
Proof. all_ascii c. Qed.

Lemma email_char_not_space c : is_email_char c = true -> is_space c = false.
Proof. all_ascii c. Qed.

Lemma email_char_lower c : is_email_char c = true -> is_email_char (lower_ascii c) = true.
Proof. all_ascii c. Qed.

Lemma email_char_lower_punct c :
  is_email_char c = true -> is_punct (lower_ascii c) = is_punct c.
Proof. all_ascii c. Qed.

Lemma alpha_not_punct c : is_ascii_alpha c = true -> is_punct c = false.
Proof. all_ascii c. Qed.

Lemma local_is_email_char c : is_local_char c = true -> is_email_char c = true.
Proof. all_ascii c. Qed.

Lemma host_is_email_char c : is_host_char c = true -> is_email_char c = true.
Proof. all_ascii c. Qed.

Lemma alpha_is_email_char c : is_ascii_alpha c = true -> is_email_char c = true.
Proof. all_ascii c. Qed.

Lemma alpha_is_host_char c : is_ascii_alpha c = true -> is_host_char c = true.
Proof. all_ascii c. Qed.

(** ** Strings *)

Lemma str_app_cons x (a b : string) : String x a +:+ b = String x (a +:+ b).
Proof. reflexivity. Qed.

Lemma str_app_nil_l (b : string) : "" +:+ b = b.
Proof. reflexivity. Qed.

Ltac str_simpl := rewrite ?str_app_cons, ?str_app_nil_l; simpl.



Lemma str_length_app (a b : string) :
  String.length (a +:+ b) = (String.length a + String.length b)%nat.
Proof. induction a as [|x a IH]; str_simpl; [reflexivity | now rewrite IH]. Qed.

Lemma str_all_app p (a b : string) :
  str_all p (a +:+ b) = str_all p a && str_all p b.
Proof.
  induction a as [|x a IH]; str_simpl; [reflexivity|].
  rewrite IH. now rewrite andb_assoc.
Qed.

Lemma str_all_impl (p q : ascii -> bool) s :
  (forall c, p c = true -> q c = true) -> str_all p s = true -> str_all q s = true.
Proof.
  intros Hpq. induction s as [|c s IH]; simpl; [reflexivity|].
  intros [Hc Hs]%andb_true_iff. rewrite (Hpq _ Hc). now apply IH.
Qed.

Lemma str_last_app_cons (a : string) c (b : string) :
  str_last (a +:+ String c b) = str_last (String c b).
Proof.
  induction a as [|x a IH]; [reflexivity|].
  rewrite str_app_cons.
  destruct a as [|y a]; [exact IH|].
  rewrite str_app_cons in *. exact IH.
Qed.

Lemma str_last_all p s c :
  str_all p s = true -> str_last s = Some c -> p c = true.
Proof.
  induction s as [|x s IH]; [discriminate|].
  simpl. intros [Hx Hs]%andb_true_iff. destruct s as [|y s].
  - intros [= <-]. exact Hx.
  - intros H. now apply IH.
Qed.

Lemma str_last_lower s : str_last (str_lower s) = lower_ascii <$> str_last s.
Proof.
  induction s as [|x s IH]; [reflexivity|].
  destruct s as [|y s]; [reflexivity|]. exact IH.
Qed.

Lemma str_all_lower p q s :
  (forall c, p c = true -> q (lower_ascii c) = true) ->
  str_all p s = true -> str_all q (str_lower s) = true.
Proof.
  intros Hpq. induction s as [|c s IH]; simpl; [reflexivity|].
  intros [Hc Hs]%andb_true_iff. rewrite (Hpq _ Hc). now apply IH.
Qed.

Lemma str_lower_idem s : str_lower (str_lower s) = str_lower s.
Proof.
  induction s as [|c s IH]; simpl; [reflexivity|].
  now rewrite lower_ascii_idem, IH.
Qed.

Lemma str_lower_app a b : str_lower (a +:+ b) = str_lower a +:+ str_lower b.
Proof. induction a as [|x a IH]; str_simpl; [reflexivity | now rewrite IH]. Qed.

(** Stripping on the right leaves a string alone if its last
    character is not stripped. *)
Lemma rstrip_by_id p s :
  match str_last s with Some c => p c = false | None => True end ->
  rstrip_by p s = s.
Proof.
  induction s as [|x s IH]; [reflexivity|].
  destruct s as [|y s].
  - simpl. now intros ->.
  - intros H. specialize (IH H).
    change (rstrip_by p (String x (String y s)))
      with (match rstrip_by p (String y s) with
            | "" => if p x then "" else String x ""
            | r => String x r end).
    now rewrite IH.
Qed.

Lemma lstrip_by_id p s :
  match str_head s with Some c => p c = false | None => True end ->
  lstrip_by p s = s.
Proof. destruct s as [|x s]; simpl; [reflexivity|]. now intros ->. Qed.

Lemma lstrip_by_head p s :
  match str_head (lstrip_by p s) with Some c => p c = false | None => True end.
Proof.
  induction s as [|x s IH]; simpl; [exact I|].
  destruct (p x) eqn:E; [exact IH | simpl; exact E].
Qed.

Lemma lstrip_by_all p q s : str_all q s = true -> str_all q (lstrip_by p s) = true.
Proof.
  induction s as [|x s IH]; simpl; [reflexivity|].
  intros H. destruct (p x); [|exact H].
  apply andb_true_iff in H as [_ H]. now apply IH.
Qed.

Lemma lstrip_by_last p s c :
  str_last s = Some c -> p c = false -> str_last (lstrip_by p s) = Some c.
Proof.
  induction s as [|x s IH]; [discriminate|].
  intros Hl Hc. simpl lstrip_by. destruct (p x) eqn:E; [|exact Hl].
  destruct s as [|y s].
  - simpl in Hl. injection Hl as ->. congruence.
  - now apply IH.
Qed.

Lemma strip_by_none p s :
  str_all (fun c => negb (p c)) s = true -> strip_by p s = s.
Proof.
  intros H. unfold strip_by.
  rewrite lstrip_by_id.
  - apply rstrip_by_id. destruct (str_last s) as [c|] eqn:E; [|exact I].
    apply (str_last_all _ _ _ H) in E. now apply negb_true_iff in E.
  - destruct s as [|x s]; simpl in *; [exact I|].
    apply andb_true_iff in H as [H _]. now apply negb_true_iff in H.
Qed.

Lemma str_last_app (a b : string) : b <> "" -> str_last (a +:+ b) = str_last b.
Proof. destruct b as [|c b]; [congruence|]. intros _. apply str_last_app_cons. Qed.

Lemma str_last_some (s : string) : s <> "" -> exists c, str_last s = Some c.
Proof.
  induction s as [|x s IH]; [congruence|]. intros _.
  destruct s as [|y s]; [now exists x|].
  destruct IH as [c Hc]; [discriminate|]. now exists c.
Qed.

Lemma str_head_lower s : str_head (str_lower s) = lower_ascii <$> str_head s.
Proof. now destruct s. Qed.

(** ** Normalization of matched candidates *)

Lemma EMAIL_RE_chars x :
  EMAIL_RE x ->
  str_all is_email_char x = true
  /\ exists c, str_last x = Some c /\ is_ascii_alpha c = true.
Proof.
  intros (loc & host & tld & -> & _ & Hloc & _ & Hhost & Hlen & Htld).
  split.
  - rewrite !str_all_app.
    rewrite (str_all_impl _ _ _ local_is_email_char Hloc).
    rewrite (str_all_impl _ _ _ host_is_email_char Hhost).
    rewrite (str_all_impl _ _ _ alpha_is_email_char Htld).
    reflexivity.
  - assert (Hne : tld <> "") by (destruct tld; [simpl in Hlen; lia | discriminate]).
    destruct (str_last_some tld Hne) as [c Hc].
    exists c. split; [|exact (str_last_all _ _ _ Htld Hc)].
    rewrite <- Hc.
    rewrite str_last_app by discriminate.
    rewrite (str_last_app "@") by (destruct host; discriminate).
    rewrite str_last_app by discriminate.
    now rewrite (str_last_app ".").
Qed.

Lemma strip_punct_clean x c :
  str_last x = Some c -> is_punct c = false ->
  str_strip_chars PUNCT x = lstrip_by is_punct x.
Proof.
  intros Hl Hc. unfold str_strip_chars, strip_by. fold is_punct.
  apply rstrip_by_id. now rewrite (lstrip_by_last _ _ _ Hl Hc).
Qed.

Lemma str_strip_email_chars x :
  str_all is_email_char x = true -> str_strip x = x.
Proof.
  intros H. apply strip_by_none. revert H. apply str_all_impl.
  intros c Hc. now rewrite (email_char_not_space _ Hc).
Qed.

(** On a string of email characters that ends in a letter,
    [normalize_email] drops the leading dots and lowercases. *)
Lemma normalize_email_clean x c :
  str_all is_email_char x = true ->
  str_last x = Some c -> is_ascii_alpha c = true ->
  normalize_email x = str_lower (lstrip_by is_punct x).
Proof.
  intros Hall Hl Hc. unfold normalize_email.
  rewrite (str_strip_email_chars _ Hall).
  now rewrite (strip_punct_clean _ _ Hl (alpha_not_punct _ Hc)).
Qed.

Lemma normalize_email_fixed y c :
  str_all is_email_char y = true ->
  str_last y = Some c -> is_ascii_alpha c = true ->
  match str_head y with Some h => is_punct h = false | None => True end ->
  normalize_email (str_lower y) = str_lower y.
Proof.
  intros Hall Hl Hc Hh.
  assert (Hall' : str_all is_email_char (str_lower y) = true)
    by (revert Hall; apply str_all_lower, email_char_lower).
  assert (Hl' : str_last (str_lower y) = Some (lower_ascii c))
    by (now rewrite str_last_lower, Hl).
  assert (Hc' : is_punct (lower_ascii c) = false).
  { rewrite email_char_lower_punct by now apply alpha_is_email_char.
    now apply alpha_not_punct. }
  unfold normalize_email.
  rewrite (str_strip_email_chars _ Hall').
  rewrite (strip_punct_clean _ _ Hl' Hc').
  rewrite lstrip_by_id; [apply str_lower_idem|].
  rewrite str_head_lower. destruct y as [|h y]; simpl in *; [exact I|].
  apply andb_true_iff in Hall as [Hhe _].
  now rewrite email_char_lower_punct.
Qed.

(** [C9] Email normalization is idempotent on matched candidates: for
    every string [x] in the language of the email pattern,
    [normalize_email (normalize_email x) = normalize_email x]. *)
Theorem normalize_email_idempotent (x : string) :
  EMAIL_RE x -> normalize_email (normalize_email x) = normalize_email x.
Proof.
  intros Hx. destruct (EMAIL_RE_chars x Hx) as (Hall & c & Hl & Hc).
  rewrite (normalize_email_clean x c Hall Hl Hc).
  apply (normalize_email_fixed _ c).
  - now apply lstrip_by_all.
  - apply lstrip_by_last; [exact Hl | now apply alpha_not_punct].
  - exact Hc.
  - apply lstrip_by_head.
Qed.

Lemma normalize_email_idempotent_witness :
  EMAIL_RE ".Jane.Doe@Mail.Example.COM"
  /\ normalize_email (normalize_email ".Jane.Doe@Mail.Example.COM")
     = normalize_email ".Jane.Doe@Mail.Example.COM".
Proof.
  assert (H : EMAIL_RE ".Jane.Doe@Mail.Example.COM").
  { exists ".Jane.Doe", "Mail.Example", "COM".
    repeat split; try reflexivity; try discriminate. simpl. lia. }
  split; [exact H | exact (normalize_email_idempotent _ H)].
Defined.

(** ** Every match found by [EMAIL_RE_finditer] is in the language *)

Lemma str_take_drop n s : str_take n s +:+ str_drop n s = s.
Proof.
  revert s. induction n as [|n IH]; intros [|c s]; try reflexivity.
  simpl. rewrite str_app_cons. now rewrite IH.
Qed.

Lemma str_take_add n k s :
  str_take (n + k) s = str_take n s +:+ str_take k (str_drop n s).
Proof.
  revert s. induction n as [|n IH]; intros s; [reflexivity|].
  destruct s as [|c s]; simpl; [now destruct k|].
  rewrite str_app_cons. now rewrite IH.
Qed.

Lemma span_len_all p s : str_all p (str_take (span_len p s) s) = true.
Proof.
  induction s as [|c s IH]; [reflexivity|].
  simpl. destruct (p c) eqn:E; [|reflexivity]. simpl. now rewrite E.
Qed.

Lemma span_len_length p s : String.length (str_take (span_len p s) s) = span_len p s.
Proof.
  induction s as [|c s IH]; [reflexivity|].
  simpl. destruct (p c); [|reflexivity]. simpl. now rewrite IH.
Qed.

Lemma host_end_cons c h :
  host_end (String c h) =
    if is_host_char c then
      match host_end h with
      | Some n => Some (S n)
      | None =>
          if Ascii.eqb c "." && (2 <=? span_len is_ascii_alpha h)%nat
             && negb (word_at (str_head (str_drop (span_len is_ascii_alpha h) h)))
          then Some (S (span_len is_ascii_alpha h)) else None
      end
    else None.
Proof. reflexivity. Qed.

Lemma host_end_spec h n :
  host_end h = Some n ->
  exists hs tld,
    str_take n h = hs +:+ "." +:+ tld
    /\ str_all is_host_char hs = true
    /\ str_all is_ascii_alpha tld = true /\ (2 <= String.length tld)%nat.
Proof.
  revert n. induction h as [|c h IH]; intros n; [discriminate|].
  rewrite host_end_cons. destruct (is_host_char c) eqn:Ec; [|discriminate].
  destruct (host_end h) as [k|] eqn:Ek.
  - intros [= <-]. destruct (IH k eq_refl) as (hs & tld & Ht & Hhs & Htld & Hlen).
    exists (String c hs), tld. simpl. rewrite Ht, Ec, Hhs. rewrite str_app_cons. auto.
  - destruct (Ascii.eqb c ".") eqn:Edot; [|discriminate].
    destruct (2 <=? span_len is_ascii_alpha h)%nat eqn:Em; [|discriminate].
    destruct (negb _); [|discriminate]. intros [= <-].
    apply Ascii.eqb_eq in Edot. subst c.
    exists "", (str_take (span_len is_ascii_alpha h) h). repeat split.
    + apply span_len_all.
    + rewrite span_len_length. now apply Nat.leb_le.
Qed.

Lemma match_at_sound prev s m : match_at prev s = Some m -> EMAIL_RE m.
Proof.
  unfold match_at. destruct (boundary prev s); [|discriminate].
  destruct (span_len is_local_char s) as [|n1] eqn:En1; [discriminate|].
  destruct (str_drop (S n1) s) as [|a [|c0 h]] eqn:Ed; try discriminate.
  destruct (Ascii.eqb a "@") eqn:Ea; [|discriminate].
  destruct (is_host_char c0) eqn:Ec0; [|discriminate]. cbv beta iota delta [andb].
  destruct (host_end h) as [n|] eqn:Eh; [|discriminate]. intros [= <-].
  apply Ascii.eqb_eq in Ea. subst a.
  destruct (host_end_spec h n Eh) as (hs & tld & Ht & Hhs & Htld & Hlen).
  assert (Hm : str_take (S n1 + 2 + n) s
               = str_take (S n1) s +:+ "@" +:+ String c0 hs +:+ "." +:+ tld).
  { replace (S n1 + 2 + n)%nat with (S n1 + S (S n))%nat by lia.
    rewrite str_take_add, Ed.
    change (str_take (S (S n)) (String "@" (String c0 h)))
      with (String "@" (String c0 (str_take n h))).
    now rewrite Ht. }
  exists (str_take (S n1) s), (String c0 hs), tld.
  split; [|repeat split].
  - exact Hm.
  - destruct s; [discriminate En1 | discriminate].
  - rewrite <- En1. apply span_len_all.
  - discriminate.
  - simpl. now rewrite Ec0, Hhs.
  - exact Hlen.
  - exact Htld.
Qed.

Lemma finditer_go_sound prev s skip m :
  m ∈ finditer_go prev s skip -> EMAIL_RE m.
Proof.
  revert prev skip. induction s as [|c s IH]; intros prev skip; simpl.
  - intros H. now apply elem_of_nil in H.
  - destruct skip as [|k]; [|apply IH].
    destruct (match_at prev (String c s)) as [m'|] eqn:Em; [|apply IH].
    intros [->|H]%elem_of_cons; [now apply (match_at_sound prev (String c s)) | now apply IH in H].
Qed.

Lemma EMAIL_RE_finditer_sound text m :
  m ∈ EMAIL_RE_finditer text -> EMAIL_RE m.
Proof. apply finditer_go_sound. Qed.

(** ** Scope policy *)

Lemma split_once_spec sep s a b :
  split_once sep s = Some (a, b) <-> s = a +:+ String sep b /\ str_mem sep a = false.
Proof.
  revert a. induction s as [|c s IH]; intros a.
  - split; [discriminate|]. intros [H _]. now destruct a.
  - simpl. destruct (Ascii.eqb c sep) eqn:E.
    + apply Ascii.eqb_eq in E. subst c. split.
      * intros [= <- <-]. now split.
      * intros [H Hm]. destruct a as [|x a]; [now inversion H|].
        rewrite str_app_cons in H. injection H as <- _.
        simpl in Hm. now rewrite Ascii.eqb_refl in Hm.
    + destruct (split_once sep s) as [[a' b']|] eqn:Es; split.
      * intros [= <- <-]. destruct (proj1 (IH a') eq_refl) as [-> Hm].
        split; [reflexivity|]. simpl. rewrite Ascii.eqb_sym. now rewrite E.
      * intros [H Hm]. destruct a as [|x a].
        { injection H as -> _. now rewrite Ascii.eqb_refl in E. }
        rewrite str_app_cons in H. injection H as <- ->.
        simpl in Hm. destruct (Ascii.eqb sep c); [discriminate|].
        assert (Hs : Some (a', b') = Some (a, b)) by (apply IH; auto).
        now injection Hs as -> ->.
      * discriminate.
      * intros [H Hm]. destruct a as [|x a].
        { injection H as -> _. now rewrite Ascii.eqb_refl in E. }
        rewrite str_app_cons in H. injection H as <- ->.
        simpl in Hm. destruct (Ascii.eqb sep c); [discriminate|].
        assert (Hs : None = Some (a, b)) by (apply IH; auto). discriminate.
Qed.

Lemma split_once_none sep s : split_once sep s = None <-> str_mem sep s = false.
Proof.
  induction s as [|c s IH]; [easy|].
  simpl. rewrite (Ascii.eqb_sym sep c). destruct (Ascii.eqb c sep); [easy|].
  destruct (split_once sep s) as [[a b]|]; [|tauto].
  split; [discriminate|]. intros H. apply IH in H. discriminate.
Qed.

(** [after_at] is the text after the first [@]. *)
Lemma after_at_spec e dom :
  after_at e = Some dom <->
  exists loc, e = loc +:+ "@" +:+ dom /\ str_mem "@" loc = false.
Proof.
  unfold after_at. split.
  - destruct (split_once "@" e) as [[a b]|] eqn:E; [|discriminate].
    intros [= <-]. exists a. now apply split_once_spec.
  - intros (loc & H & Hm).
    assert (E : split_once "@" e = Some (loc, dom)) by now apply split_once_spec.
    now rewrite E.
Qed.

Lemma after_at_none e : after_at e = None <-> str_mem "@" e = false.
Proof.
  unfold after_at. rewrite <- split_once_none.
  destruct (split_once "@" e); [split; discriminate | tauto].
Qed.

Lemma str_drop_app_length (p t : string) : str_drop (String.length p) (p +:+ t) = t.
Proof. induction p as [|c p IH]; [now destruct t|]. now rewrite str_app_cons. Qed.

Lemma str_endswith_spec s t :
  str_endswith s t = true <-> exists p, s = p +:+ t.
Proof.
  unfold str_endswith. rewrite andb_true_iff, Nat.leb_le, String.eqb_eq. split.
  - intros [_ H]. exists (str_take (String.length s - String.length t) s).
    rewrite <- H at 2. symmetry. apply str_take_drop.
  - intros [p ->]. rewrite str_length_app. split; [lia|].
    replace (String.length p + String.length t - String.length t)%nat
      with (String.length p) by lia.
    apply str_drop_app_length.
Qed.

Lemma suffix_match_spec host d :
  suffix_match host d = true <-> host = d \/ exists p, host = p +:+ "." +:+ d.
Proof.
  unfold suffix_match. now rewrite orb_true_iff, String.eqb_eq, str_endswith_spec.
Qed.

Lemma scope_test_spec (host : string) (S : gset string) :
  existsb (suffix_match host) (elements S) = true <->
  exists d, d ∈ S /\ (host = d \/ exists p, host = p +:+ "." +:+ d).
Proof.
  rewrite existsb_exists. split.
  - intros (d & Hd & H). exists d. split.
    + now apply elem_of_elements, list_elem_of_In.
    + now apply suffix_match_spec.
  - intros (d & Hd & H). exists d. split.
    + now apply list_elem_of_In, elem_of_elements.
    + now apply suffix_match_spec.
Qed.

Lemma domain_allowed_spec host (S : gset string) :
  domain_allowed host S = true <->
  exists d, d ∈ S /\ (str_lower host = d \/ exists p, str_lower host = p +:+ "." +:+ d).
Proof. apply scope_test_spec. Qed.

Lemma email_matches_allowed_spec email (S : gset string) :
  email_matches_allowed email S = true <->
  exists dom, after_at email = Some dom
    /\ exists d, d ∈ S /\ (str_lower dom = d \/ exists p, str_lower dom = p +:+ "." +:+ d).
Proof.
  unfold email_matches_allowed. destruct (after_at email) as [dom|].
  - rewrite scope_test_spec. split.
    + intros H. now exists dom.
    + now intros (? & [= <-] & H).
  - split; [discriminate | now intros (? & ? & _)].
Qed.

Lemma extract_emails_fold (S : gset string) l (acc : gset string) e :
  e ∈ foldl (fun hits m =>
               let email := normalize_email m in
               if email_matches_allowed email S then {[ email ]} ∪ hits else hits)
            acc l
  <-> e ∈ acc \/ exists m, m ∈ l /\ e = normalize_email m
                           /\ email_matches_allowed e S = true.
Proof.
  revert acc. induction l as [|m l IH]; intros acc; simpl.
  - split; [auto|]. intros [H|(m & Hm & _)]; [exact H | now apply elem_of_nil in Hm].
  - rewrite IH. split.
    + intros [H|(m' & Hm' & He)].
      * destruct (email_matches_allowed (normalize_email m) S) eqn:E; [|auto].
        apply elem_of_union in H as [H|H]; [|auto].
        apply elem_of_singleton in H. subst e.
        right. exists m. split; [apply elem_of_cons; auto | auto].
      * right. exists m'. split; [apply elem_of_cons; auto | exact He].
    + intros [H|(m' & Hm' & He & Hok)].
      * left. destruct (email_matches_allowed (normalize_email m) S); [|exact H].
        apply elem_of_union. now right.
      * apply elem_of_cons in Hm' as [->|Hm'].
        -- left. subst e. rewrite Hok. apply elem_of_union. left.
           now apply elem_of_singleton.
        -- right. now exists m'.
Qed.

Lemma extract_emails_spec text (S : gset string) e :
  e ∈ extract_emails text S <->
  exists m, m ∈ EMAIL_RE_finditer text /\ e = normalize_email m
            /\ email_matches_allowed e S = true.
Proof.
  unfold extract_emails. destruct (String.eqb text "") eqn:E.
  - apply String.eqb_eq in E. subst text. split.
    + intros H. now apply not_elem_of_empty in H.
    + intros (m & Hm & _). now apply elem_of_nil in Hm.
  - rewrite extract_emails_fold. split; [|auto].
    intros [H|H]; [now apply not_elem_of_empty in H | exact H].
Qed.

Lemma in_scope_lowered dom (S : gset string) :
  (forall d, d ∈ S -> str_lower d = d) ->
  in_scope dom S <->
  exists d, d ∈ S /\ (str_lower dom = d \/ exists p, str_lower dom = p +:+ "." +:+ d).
Proof.
  intros HS. unfold in_scope, ci_eq, ci_endswith.
  split; intros (d & Hd & H); exists d; (split; [exact Hd|]).
  - rewrite str_lower_app, (HS d Hd) in H. exact H.
  - rewrite str_lower_app, (HS d Hd). exact H.
Qed.

(** [C1] For a scope set [S] of lowercase suffixes, [extract_emails text S]
    is exactly the set of normalized candidates [e] (normalizations of the
    matches of the email pattern in [text]) whose domain, the text after
    the first [@] of [e], equals a member of [S] or ends with a dot
    followed by a member of [S], ignoring case; a candidate without an [@]
    is never kept. *)
Theorem extract_emails_exact (S : gset string) (text : string) :
  (forall d, d ∈ S -> str_lower d = d) ->
  (forall e,
      e ∈ extract_emails text S <->
      (exists m, m ∈ EMAIL_RE_finditer text /\ e = normalize_email m)
      /\ (exists loc dom,
             e = loc +:+ "@" +:+ dom /\ str_mem "@" loc = false /\ in_scope dom S))
  /\ (forall e, str_mem "@" e = false -> e ∉ extract_emails text S).
Proof.
  intros HS. split.
  - intros e. rewrite extract_emails_spec. split.
    + intros (m & Hm & He & Hok). split; [now exists m|].
      apply email_matches_allowed_spec in Hok as (dom & Hdom & Hsc).
      apply after_at_spec in Hdom as (loc & Hloc & Hmem).
      exists loc, dom. repeat split; try assumption.
      now apply in_scope_lowered.
    + intros ((m & Hm & He) & (loc & dom & Hloc & Hmem & Hsc)).
      exists m. repeat split; try assumption.
      apply email_matches_allowed_spec. exists dom. split.
      * apply after_at_spec. now exists loc.
      * now apply in_scope_lowered.
  - intros e He Hin. apply extract_emails_spec in Hin as (m & _ & _ & Hok).
    apply email_matches_allowed_spec in Hok as (dom & Hdom & _).
    apply after_at_none in He. congruence.
Qed.

Lemma extract_emails_exact_witness :
  (forall d : string, d ∈ ({[ "example.com" ]} : gset string) -> str_lower d = d)
  /\ "jane@example.com"
       ∈ extract_emails "Jane <Jane@Example.com>, eve@notexample.com" {[ "example.com" ]}.
Proof.
  assert (HS : forall d : string,
             d ∈ ({[ "example.com" ]} : gset string) -> str_lower d = d).
  { intros d Hd. apply elem_of_singleton in Hd. subst d. reflexivity. }
  split; [exact HS|].
  apply (proj1 (extract_emails_exact {[ "example.com" ]} _ HS)).
  split.
  - exists "Jane@Example.com". split; [|reflexivity].
    vm_compute. apply elem_of_cons. now left.
  - exists "jane", "example.com". repeat split.
    exists "example.com". split; [now apply elem_of_singleton|].
    now left.
Defined.

(** ** The crawl loop: case analysis and invariants *)

(** Splits an equation [loop_body cfg w url0 depth st = (o, st')] into
    the six ways an iteration can end. *)
Ltac loop_body_cases H :=
  unfold loop_body in H;
  repeat match type of H with
    | context [bool_decide ?P] => destruct (bool_decide_reflect P)
    | context [honor ?c] => destruct (honor c) eqn:?
    | context [can_fetch ?a ?b ?c ?d ?e] => destruct (can_fetch a b c d e) as [[] ?] eqn:?
    | context [http_get ?a ?b ?c] => destruct (http_get a b c) as [|?] eqn:?
    | context [(?a =? 200)] => destruct (a =? 200) eqn:?
    | context [dispatch ?a ?b ?c ?d] => destruct (dispatch a b c d) as [[[? ?] ?]|] eqn:?
    | context [record_emails ?a ?b ?c ?d ?e ?f] =>
        destruct (record_emails a b c d e f) as [? ?] eqn:?
    | context [include_phones ?c] => destruct (include_phones c) eqn:?
    | context [record_phones ?a ?b ?c ?d ?e ?f] =>
        destruct (record_phones a b c d e f) as [? ?] eqn:?
    end;
  simpl in H; injection H as <- <-.

Section Invariants.
Context (cfg : Config) (w : World).

Lemma step_some st o st' :
  step cfg w st = Some (o, st') ->
  exists url0 depth q,
    queue st = (url0, depth) :: q /\ pages st < max_pages cfg
    /\ loop_body cfg w url0 depth (with_queue q st) = (o, st').
Proof.
  unfold step. destruct (queue st) as [|[url0 depth] q]; [discriminate|].
  destruct (pages st <? max_pages cfg) eqn:E; [|discriminate].
  intros [= H]. exists url0, depth, q. repeat split; [lia | exact H].
Qed.

Lemma crawl_invariant (P : State -> Prop) :
  (forall st o st', P st -> step cfg w st = Some (o, st') -> P st') ->
  forall fuel st, P st -> P (crawl cfg w fuel st).
Proof.
  intros Hstep. induction fuel as [|n IH]; intros st Hst; [exact Hst|].
  simpl. destruct (step cfg w st) as [[o st']|] eqn:E; [|exact Hst].
  apply IH. eapply Hstep; eauto.
Qed.

Lemma crawl_add n m st :
  crawl cfg w (n + m) st = crawl cfg w m (crawl cfg w n st).
Proof.
  revert st. induction n as [|n IH]; intros st; [reflexivity|].
  simpl. destruct (step cfg w st) as [[o st']|] eqn:E; [apply IH|].
  destruct m; simpl; [reflexivity | now rewrite E].
Qed.

(** *** The request log *)

Lemma requests_inv_step st o st' :
  requests_inv st -> step cfg w st = Some (o, st') -> requests_inv st'.
Proof.
  intros [Hnd Hsub] (url0 & depth & q & Hq & Hp & Hb)%step_some.
  loop_body_cases Hb; simpl in *; (split; [|intros u Hu]);
    try assumption; try (now apply Hsub);
    try (apply elem_of_union; right; now apply Hsub).
  all: try (apply NoDup_app; repeat split;
            [ exact Hnd
            | intros x Hx ->%list_elem_of_singleton; now apply Hsub in Hx
            | apply NoDup_singleton ]).
  all: apply elem_of_app in Hu as [Hu| ->%list_elem_of_singleton];
    apply elem_of_union; [right; now apply Hsub | left; now apply elem_of_singleton].
Qed.

Lemma seen_urls_step st o st' :
  step cfg w st = Some (o, st') -> seen_urls st ⊆ seen_urls st'.
Proof.
  intros (url0 & depth & q & Hq & Hp & Hb)%step_some.
  loop_body_cases Hb; simpl; set_solver.
Qed.

Lemma seen_urls_mono fuel st : seen_urls st ⊆ seen_urls (crawl cfg w fuel st).
Proof.
  revert st. induction fuel as [|n IH]; intros st; [reflexivity|].
  simpl. destruct (step cfg w st) as [[o st']|] eqn:E; [|reflexivity].
  etransitivity; [exact (seen_urls_step _ _ _ E) | apply IH].
Qed.

Lemma step_seen st url0 depth q :
  queue st = (url0, depth) :: q -> pages st < max_pages cfg ->
  url0 ∈ seen_urls st ->
  step cfg w st = Some (SkipSeen, with_queue q st).
Proof.
  intros Hq Hp Hs. unfold step. rewrite Hq.
  destruct (pages st <? max_pages cfg) eqn:E; [|lia].
  unfold loop_body. simpl. now rewrite bool_decide_eq_true_2.
Qed.

(** [C2] No URL is requested twice: in every state the crawl reaches,
    the log of URLs passed to [s.get] has no duplicate; a dequeued URL
    is in the visited set when its iteration ends; the visited set only
    grows; and dequeuing a URL that is already in the visited set
    ends the iteration at once, leaving everything but the queue (the
    robots cache and the request log included) as it was. *)
Theorem fetch_at_most_once :
  (forall fuel, NoDup (requests (crawl cfg w fuel (init cfg))))
  /\ (forall st url0 depth q o st',
         queue st = (url0, depth) :: q -> step cfg w st = Some (o, st') ->
         url0 ∈ seen_urls st')
  /\ (forall fuel st, seen_urls st ⊆ seen_urls (crawl cfg w fuel st))
  /\ (forall st url0 depth q,
         queue st = (url0, depth) :: q -> pages st < max_pages cfg ->
         url0 ∈ seen_urls st ->
         step cfg w st = Some (SkipSeen, with_queue q st)).
Proof.
  split; [|split; [|split]].
  - intros fuel.
    apply (crawl_invariant requests_inv requests_inv_step fuel (init cfg)).
    split; [apply NoDup_nil_2 | intros u Hu; now apply elem_of_nil in Hu].
  - intros st url0 depth q o st' Hq (u & d & q' & Hq' & _ & Hb)%step_some.
    rewrite Hq in Hq'. injection Hq' as <- <- <-.
    loop_body_cases Hb; simpl; set_solver.
  - apply seen_urls_mono.
  - apply step_seen.
Qed.

End Invariants.

Ltac list_mem := vm_compute; repeat constructor.

Section DepthBound.
Context (cfg : Config) (w : World).

Lemma filtered_links_depth seen depth out_links nxt :
  nxt ∈ filtered_links cfg seen depth out_links -> depth < max_depth cfg.
Proof.
  unfold filtered_links. destruct (depth <? max_depth cfg) eqn:E; [lia|].
  intros H. now apply elem_of_nil in H.
Qed.

(** What an iteration that pops [(url0, depth)] leaves in the queue:
    the rest of the queue, followed by accepted links at [depth + 1]. *)
Lemma step_queue st url0 depth q o st' :
  queue st = (url0, depth) :: q -> step cfg w st = Some (o, st') ->
  exists links,
    queue st' = (q ++ map (fun nxt => (nxt, depth + 1)) links)%list
    /\ (links <> [] -> o = Processed /\ depth < max_depth cfg).
Proof.
  intros Hq (u & d & q' & Hq' & _ & Hb)%step_some.
  rewrite Hq in Hq'. injection Hq' as <- <- <-.
  loop_body_cases Hb; simpl;
    try (exists []; split; [now rewrite app_nil_r | congruence]).
  all: eexists; split; [reflexivity|]; intros Hne; split; [reflexivity|].
  all: match goal with
       | H : ?l <> [] |- _ => destruct l as [|x l'] eqn:El; [congruence|]
       end.
  all: match goal with
       | H : filtered_links _ ?s ?d ?l = ?y :: _ |- _ =>
           apply (filtered_links_depth s d l y); rewrite H; apply elem_of_cons; auto
       end.
Qed.

Lemma depth_inv_step st o st' :
  depth_inv cfg st -> step cfg w st = Some (o, st') -> depth_inv cfg st'.
Proof.
  intros Hinv Hstep.
  destruct (step_some _ _ _ _ _ Hstep) as (url0 & depth & q & Hq & _ & _).
  destruct (step_queue _ _ _ _ _ _ Hq Hstep) as (links & Hq' & Hl).
  assert (H0 : 0 <= depth <= Z.max 0 (max_depth cfg))
    by (apply (Hinv url0); rewrite Hq; apply elem_of_cons; auto).
  intros u k. rewrite Hq'. intros [Hin|Hin]%elem_of_app.
  - apply (Hinv u). rewrite Hq. apply elem_of_cons; auto.
  - apply list_elem_of_In, in_map_iff in Hin as (nxt & [= <- <-] & Hnxt).
    destruct Hl as [_ Hl]; [intros ->; contradiction|]. lia.
Qed.

Lemma depth_inv_init : depth_inv cfg (init cfg).
Proof.
  intros u k Hin. simpl in Hin.
  apply list_elem_of_In, in_map_iff in Hin as (x & [= <- <-] & _). lia.
Qed.

(** [C7] (as amended) Every work item in the queue of a state the crawl
    reaches has a depth between 0 and [max 0 d], where [d] is the
    configured maximum depth, so no fetched page is deeper than that;
    an iteration only appends links, at [depth + 1], when the page it
    processed has [depth < d], so links found on a page at depth [d] or
    deeper are never enqueued. *)
Theorem depth_bound :
  (forall fuel u k,
      (u, k) ∈ queue (crawl cfg w fuel (init cfg)) ->
      0 <= k <= Z.max 0 (max_depth cfg))
  /\ (forall st url0 depth q o st',
         queue st = (url0, depth) :: q -> step cfg w st = Some (o, st') ->
         max_depth cfg <= depth -> queue st' = q)
  /\ (forall st url0 depth q o st' u k,
         queue st = (url0, depth) :: q -> step cfg w st = Some (o, st') ->
         (u, k) ∈ queue st' ->
         (u, k) ∈ q \/ (k = depth + 1 /\ depth < max_depth cfg)).
Proof.
  split; [|split].
  - intros fuel.
    exact (crawl_invariant cfg w (depth_inv cfg) depth_inv_step fuel (init cfg) depth_inv_init).
  - intros st url0 depth q o st' Hq Hstep Hd.
    destruct (step_queue _ _ _ _ _ _ Hq Hstep) as (links & -> & Hl).
    destruct links as [|x l]; [apply app_nil_r|].
    destruct Hl as [_ Hl]; [discriminate | lia].
  - intros st url0 depth q o st' u k Hq Hstep.
    destruct (step_queue _ _ _ _ _ _ Hq Hstep) as (links & -> & Hl).
    intros [Hin|Hin]%elem_of_app; [now left | right].
    apply list_elem_of_In, in_map_iff in Hin as (nxt & [= <- <-] & Hnxt).
    destruct Hl as [_ Hl]; [intros ->; contradiction|]. auto.
Qed.

End DepthBound.

Lemma depth_bound_witness :
  ("http://b.example.com/page", 1) ∈ queue (crawl ex_cfg ex_world 1 (init ex_cfg))
  /\ 0 <= 1 <= Z.max 0 (max_depth ex_cfg).
Proof.
  assert (H : ("http://b.example.com/page", 1)
                ∈ queue (crawl ex_cfg ex_world 1 (init ex_cfg))) by list_mem.
  split; [exact H|].
  exact (proj1 (depth_bound ex_cfg ex_world) 1%nat _ _ H).
Defined.

(** [C7], as first stated, fails: with [--depth -1] the seed is still
    enqueued at depth 0 and requested, a work item and a fetched page
    deeper than the configured maximum. *)
Lemma depth_bound_negative_depth :
  ~ (forall (cfg : Config) (w : World) fuel u k,
        (u, k) ∈ queue (crawl cfg w fuel (init cfg)) -> k <= max_depth cfg)
  /\ max_depth ex_cfg_negative_depth = -1
  /\ queue (init ex_cfg_negative_depth) = [("http://a.example.com", 0)]
  /\ requests (crawl ex_cfg_negative_depth ex_world 1 (init ex_cfg_negative_depth))
     = ["http://a.example.com"].
Proof.
  split; [|repeat split].
  intros H.
  specialize (H ex_cfg_negative_depth ex_world 0%nat "http://a.example.com" 0).
  assert (Hin : ("http://a.example.com", 0)
                  ∈ queue (crawl ex_cfg_negative_depth ex_world 0
                             (init ex_cfg_negative_depth))) by list_mem.
  apply H in Hin. vm_compute in Hin. now apply Hin.
Qed.

(** ** The HTTP status check *)

Section StatusCheck.
Context (cfg : Config) (w : World).

Lemma app_singleton_neq {A} (l : list A) x : l <> (l ++ [x])%list.
Proof.
  intros H. apply (f_equal (@List.length A)) in H.
  rewrite length_app in H. simpl in H. lia.
Qed.

(** [C5] (as amended) When an iteration has passed the politeness gate
    and its request returned a response, the response is discarded at
    the status check if and only if its status is not 200; a response
    with status 200 goes on to the content-type dispatch, where it is
    either unsupported or processed. *)
Theorem status_check url0 depth st resp o st' :
  loop_body cfg w url0 depth st = (o, st') ->
  requests st' = (requests st ++ [url0])%list ->
  http_get w (List.length (requests st)) url0 = GetOk resp ->
  (o = SkipStatus <-> status_code resp <> 200)
  /\ (status_code resp = 200 ->
      (o = SkipUnsupported <-> dispatch cfg w resp depth = None)
      /\ (o = Processed <-> dispatch cfg w resp depth <> None)).
Proof.
  intros Hb Hreq Hget.
  loop_body_cases Hb; simpl in Hreq;
    try (now apply app_singleton_neq in Hreq);
    try discriminate Hget.
  all: injection Hget as ->.
  all: repeat match goal with
         | H : (_ =? 200) = true |- _ => apply Z.eqb_eq in H
         | H : (_ =? 200) = false |- _ => apply Z.eqb_neq in H
         end.
  all: split; [split; intros; congruence | intros H200; split; split; intros; congruence].
Qed.

End StatusCheck.

Lemma status_check_witness :
  let st := with_queue [] (init ex_cfg) in
  let r := loop_body ex_cfg ex_world "http://a.example.com" 0 st in
  fst r = Processed /\ status_code ex_page_a = 200.
Proof.
  intros st r.
  assert (Hb : loop_body ex_cfg ex_world "http://a.example.com" 0 st = (fst r, snd r))
    by apply surjective_pairing.
  assert (Hreq : requests (snd r) = (requests st ++ ["http://a.example.com"])%list)
    by (vm_compute; reflexivity).
  assert (Hget : http_get ex_world (List.length (requests st)) "http://a.example.com"
                 = GetOk ex_page_a) by (vm_compute; reflexivity).
  destruct (status_check ex_cfg ex_world _ _ _ _ _ _ Hb Hreq Hget) as [_ H].
  assert (H200 : status_code ex_page_a = 200) by reflexivity.
  split; [|exact H200].
  apply (proj2 (H H200)). vm_compute. discriminate.
Defined.

(** [C5], as first stated, fails: a response with status 201, which is
    in the 2xx class, is discarded at the status check. *)
Lemma status_201_is_discarded :
  fst <$> step ex_cfg ex_world_created (init ex_cfg) = Some SkipStatus
  /\ http_get ex_world_created 0 "http://a.example.com" = GetOk ex_page_a_created
  /\ status_code ex_page_a_created = 201
  /\ ~ (forall (cfg : Config) (w : World) url0 depth st resp o st',
          loop_body cfg w url0 depth st = (o, st') ->
          requests st' = (requests st ++ [url0])%list ->
          http_get w (List.length (requests st)) url0 = GetOk resp ->
          (o = SkipStatus <-> ~ (200 <= status_code resp < 300))).
Proof.
  repeat split; try (vm_compute; reflexivity).
  intros H.
  pose (st := with_queue [] (init ex_cfg)).
  pose (r := loop_body ex_cfg ex_world_created "http://a.example.com" 0 st).
  assert (Hb : loop_body ex_cfg ex_world_created "http://a.example.com" 0 st
               = (fst r, snd r)) by apply surjective_pairing.
  specialize (H ex_cfg ex_world_created _ _ _ ex_page_a_created _ _ Hb).
  destruct H as [H _]; [vm_compute; reflexivity | vm_compute; reflexivity |].
  apply H; [vm_compute; reflexivity|]. simpl. lia.
Qed.

(** ** The politeness gate when robots.txt cannot be loaded *)

Lemma rp_can_fetch_new ua url : rp_can_fetch RobotFileParser_new ua url = Some false.
Proof. reflexivity. Qed.

(** When [read] raises, the parser that [load_robots] caches has never
    been marked as read, and [can_fetch] answers [False] for every URL
    of the origin. *)
Lemma can_fetch_read_raises (w : World) (cache : gmap string RobotFileParser) url ua :
  let p := urlparse url in
  let origin := scheme p +:+ "://" +:+ netloc p in
  is_http_scheme (scheme p) = true -> netloc p <> "" ->
  cache !! origin = None ->
  robots_read w (origin +:+ "/robots.txt") = ReadRaises ->
  can_fetch w cache url ua true = (false, <[origin := RobotFileParser_new]> cache).
Proof.
  intros p origin Hs Hn Hc Hr. unfold can_fetch. fold p. simpl negb.
  rewrite Hs. simpl. destruct (String.eqb (netloc p) "") eqn:E.
  { now apply String.eqb_eq in E. }
  unfold load_robots. fold origin. now rewrite Hc, Hr.
Qed.

(** A robots.txt answered with a 4xx status other than 401 and 403 does
    open the origin. *)
Lemma can_fetch_not_found (w : World) (cache : gmap string RobotFileParser) url ua c :
  let p := urlparse url in
  let origin := scheme p +:+ "://" +:+ netloc p in
  is_http_scheme (scheme p) = true -> netloc p <> "" ->
  cache !! origin = None ->
  robots_read w (origin +:+ "/robots.txt") = ReadHTTPError c ->
  400 <= c < 500 -> c <> 401 -> c <> 403 ->
  fst (can_fetch w cache url ua true) = true.
Proof.
  intros p origin Hs Hn Hc Hr Hr1 Hr2 Hr3. unfold can_fetch. fold p. simpl negb.
  rewrite Hs. simpl. destruct (String.eqb (netloc p) "") eqn:E.
  { now apply String.eqb_eq in E. }
  unfold load_robots. fold origin. rewrite Hc, Hr. simpl.
  destruct (c =? 401) eqn:E1; [lia|]. destruct (c =? 403) eqn:E2; [lia|]. simpl.
  destruct (400 <=? c) eqn:E3; [|lia]. destruct (c <? 500) eqn:E4; [|lia].
  reflexivity.
Qed.

(** [C3] On the example site with an unreachable robots.txt, the gate
    answers [False] for the seed (an http URL with a host), the
    iteration ends at the robots [continue], no request is ever made and
    the crawl reports no hits. *)
Theorem robots_failure_denies :
  robots_read ex_world_robots_down "http://a.example.com/robots.txt" = ReadRaises
  /\ scheme (urlparse "http://a.example.com") = "http"
  /\ netloc (urlparse "http://a.example.com") = "a.example.com"
  /\ fst (can_fetch ex_world_robots_down ∅ "http://a.example.com" "Mozilla" true) = false
  /\ fst <$> step ex_cfg ex_world_robots_down (init ex_cfg) = Some SkipRobots
  /\ requests (crawl ex_cfg ex_world_robots_down 5 (init ex_cfg)) = []
  /\ map r_value (main ex_cfg ex_world_robots_down 5) = ["no_hits"].
Proof. repeat split; vm_compute; reflexivity. Qed.

(** ** Link filtering *)


(** What the code tests: the scope test is applied to the netloc of the
    link, which still carries user information and port. *)
Lemma link_accepted_spec cfg (seen : gset string) nxt :
  external_follow cfg = false ->
  (link_accepted cfg seen nxt = true <->
   (nxt ∉ seen)
   /\ is_http_scheme (scheme (urlparse nxt)) = true
   /\ exists d, d ∈ allowed cfg
        /\ (str_lower (netloc (urlparse nxt)) = d
            \/ exists p, str_lower (netloc (urlparse nxt)) = p +:+ "." +:+ d)).
Proof.
  intros Hext. unfold link_accepted. rewrite Hext. simpl orb.
  rewrite <- domain_allowed_spec.
  destruct (bool_decide_reflect (nxt ∈ seen)) as [Hin|Hin].
  - split; [discriminate | now intros [? _]].
  - destruct (is_http_scheme (scheme (urlparse nxt))); simpl.
    + tauto.
    + split; [discriminate | now intros (_ & ? & _)].
Qed.

(** [C4] On the example site the seed page links to
    [http://example.com:8080/page]: an unvisited http link whose host
    [example.com] is a scope entry.  The scope test receives the netloc
    [example.com:8080], rejects the link, and the link is not enqueued. *)
Theorem link_with_port_not_enqueued :
  let nxt := "http://example.com:8080/page" in
  let st' := crawl ex_cfg ex_world 1 (init ex_cfg) in
  external_follow ex_cfg = false
  /\ elements (allowed ex_cfg) = ["example.com"]
  /\ nxt ∈ snd (handle_html ex_world "page a" "http://a.example.com" 0 (max_depth ex_cfg))
  /\ scheme (urlparse nxt) = "http"
  /\ hostname (urlparse nxt) = Some "example.com"
  /\ netloc (urlparse nxt) = "example.com:8080"
  /\ domain_allowed "example.com" (allowed ex_cfg) = true
  /\ bool_decide (nxt ∈ seen_urls st') = false
  /\ link_accepted ex_cfg (seen_urls st') nxt = false
  /\ queue st' = [("http://b.example.com/page", 1)].
Proof.
  repeat split; try (vm_compute; reflexivity).
  vm_compute. repeat constructor.
Qed.

(** ** Finalization and the sorted output *)

Section Output.
Context (cfg : Config) (w : World).

Lemma insert_sorted_perm x l : insert_sorted x l ≡ₚ x :: l.
Proof.
  induction l as [|y l IH]; simpl; [reflexivity|].
  destruct (key_leb y x); [|reflexivity].
  rewrite IH. apply Permutation_swap.
Qed.

Lemma sorted_fold_perm l acc :
  foldl (fun acc x => insert_sorted x acc) acc l ≡ₚ (l ++ acc)%list.
Proof.
  revert acc. induction l as [|x l IH]; intros acc; simpl; [reflexivity|].
  rewrite IH, insert_sorted_perm. symmetry. apply Permutation_middle.
Qed.

(** [sorted] rearranges its argument. *)
Lemma sorted_perm l : sorted l ≡ₚ l.
Proof. unfold sorted. rewrite sorted_fold_perm. now rewrite app_nil_r. Qed.

Lemma finalize_nonempty st : finalize w st <> [].
Proof.
  unfold finalize. destruct (results st ++ map snd (emails_best st))%list; discriminate.
Qed.

(** [C8] If the crawl ends with no phone record and no email record,
    finalization produces exactly one record, of type [info] and value
    [no_hits], and that is what is written; in every case the final
    result set is non-empty. *)
Theorem no_hits_sentinel :
  (forall st,
      results st = [] -> emails_best st = [] ->
      exists r, finalize w st = [r] /\ sorted (finalize w st) = [r]
                /\ r_type r = "info" /\ r_value r = "no_hits")
  /\ (forall st, finalize w st <> [])
  /\ (forall fuel, main cfg w fuel <> []).
Proof.
  split; [|split].
  - intros st Hr He. exists (info_rec (utcnow w (clock st))).
    unfold finalize. rewrite Hr, He. repeat split.
  - apply finalize_nonempty.
  - intros fuel H. unfold main in H.
    apply (finalize_nonempty (crawl cfg w fuel (init cfg))).
    apply Permutation_nil. rewrite <- H. apply sorted_perm.
Qed.

End Output.

Lemma no_hits_sentinel_witness :
  let st := crawl ex_cfg ex_world_robots_down 5 (init ex_cfg) in
  results st = [] /\ emails_best st = []
  /\ exists r, finalize ex_world_robots_down st = [r]
               /\ sorted (finalize ex_world_robots_down st) = [r]
               /\ r_type r = "info" /\ r_value r = "no_hits".
Proof.
  intros st.
  assert (Hr : results st = []) by (vm_compute; reflexivity).
  assert (He : emails_best st = []) by (vm_compute; reflexivity).
  split; [exact Hr|]. split; [exact He|].
  exact (proj1 (no_hits_sentinel ex_cfg ex_world_robots_down) st Hr He).
Defined.

(** ** The email dictionary *)

Lemma dict_get_elem k d r : dict_get k d = Some r -> (k, r) ∈ d.
Proof.
  induction d as [|[k' v] d IH]; simpl; [discriminate|].
  destruct (String.eqb k k') eqn:E.
  - apply String.eqb_eq in E. subst k'. intros [= ->]. apply elem_of_cons. now left.
  - intros H. apply elem_of_cons. right. now apply IH.
Qed.

Lemma dict_get_none k d : dict_get k d = None <-> k ∉ map fst d.
Proof.
  induction d as [|[k' v] d IH]; simpl.
  - split; [intros _ H; now apply elem_of_nil in H | reflexivity].
  - rewrite not_elem_of_cons. destruct (String.eqb k k') eqn:E.
    + apply String.eqb_eq in E. split; [discriminate | now intros [? _]].
    + apply String.eqb_neq in E. rewrite IH. tauto.
Qed.

Lemma dict_get_app k d k' r' :
  dict_get k (d ++ [(k', r')]) =
    match dict_get k d with
    | Some v => Some v
    | None => if String.eqb k k' then Some r' else None
    end.
Proof.
  induction d as [|[k0 v] d IH]; simpl; [reflexivity|].
  destruct (String.eqb k k0); [reflexivity | exact IH].
Qed.

Lemma record_email_present e r r' d :
  dict_get e d = Some r -> record_email e r' d = d.
Proof. unfold record_email. now intros ->. Qed.

Lemma record_email_absent e r d :
  dict_get e d = None -> dict_get e (record_email e r d) = Some r.
Proof.
  intros H. unfold record_email. rewrite H, dict_get_app, H.
  now rewrite String.eqb_refl.
Qed.

Lemma record_email_keeps e r e' r' d :
  dict_get e d = Some r -> dict_get e (record_email e' r' d) = Some r.
Proof.
  intros H. unfold record_email. destruct (dict_get e' d); [exact H|].
  now rewrite dict_get_app, H.
Qed.

Lemma record_email_inv S e r d :
  best_inv S d ->
  r_type r = "email" -> r_value r = e -> r_domain r = default "" (after_at e) ->
  (exists text, e ∈ extract_emails text S) ->
  best_inv S (record_email e r d).
Proof.
  intros [Hnd Hall] Ht Hv Hd He. unfold record_email.
  destruct (dict_get e d) eqn:E; [now split|].
  split.
  - rewrite map_app. apply NoDup_app. repeat split; [exact Hnd | | apply NoDup_singleton].
    simpl. intros x Hx ->%list_elem_of_singleton. now apply dict_get_none in E.
  - intros k r0 [Hin|Hin]%elem_of_app; [now apply Hall|].
    apply list_elem_of_singleton in Hin. injection Hin as -> ->. auto.
Qed.

Section Emails.
Context (cfg : Config) (w : World).

Lemma record_emails_cons url title text e es best clk :
  record_emails w url title text (e :: es) (best, clk) =
  record_emails w url title text es
    (record_email e (email_rec e url title text (utcnow w clk)) best, S clk).
Proof. reflexivity. Qed.

Lemma record_emails_inv S url title text es best clk :
  best_inv S best ->
  (forall e, e ∈ es -> e ∈ extract_emails text S) ->
  best_inv S (fst (record_emails w url title text es (best, clk))).
Proof.
  revert best clk. induction es as [|e es IH]; intros best clk Hb Hes; [exact Hb|].
  rewrite record_emails_cons. apply IH.
  - apply record_email_inv; try reflexivity; [exact Hb|].
    exists text. apply Hes, elem_of_cons. now left.
  - intros e' He'. apply Hes, elem_of_cons. now right.
Qed.

Lemma record_emails_keeps url title text es best clk e r :
  dict_get e best = Some r ->
  dict_get e (fst (record_emails w url title text es (best, clk))) = Some r.
Proof.
  revert best clk. induction es as [|e' es IH]; intros best clk Hb; [exact Hb|].
  rewrite record_emails_cons. apply IH. now apply record_email_keeps.
Qed.

Lemma record_phones_cons url title text p ps res clk :
  record_phones w url title text (p :: ps) (res, clk) =
  record_phones w url title text ps
    ((res ++ [phone_rec p url title text (utcnow w clk)])%list, S clk).
Proof. reflexivity. Qed.

Lemma record_phones_inv url title text ps res clk :
  results_inv res ->
  results_inv (fst (record_phones w url title text ps (res, clk))).
Proof.
  revert res clk. induction ps as [|p ps IH]; intros res clk Hr; [exact Hr|].
  rewrite record_phones_cons. apply IH.
  intros r [Hin|Hin]%elem_of_app; [now apply Hr|].
  apply list_elem_of_singleton in Hin. now subst r.
Qed.

Lemma store_inv_step st o st' :
  store_inv cfg st -> step cfg w st = Some (o, st') -> store_inv cfg st'.
Proof.
  intros [Hb Hr] (url0 & depth & q & Hq & Hp & Hbody)%step_some.
  loop_body_cases Hbody; simpl in *; try (now split).
  all: split; simpl.
  all: try match goal with
         | H : record_emails _ ?u ?t ?x ?es (?b, ?c) = (?l, ?n) |- best_inv _ ?l =>
             change l with (fst (l, n)); rewrite <- H;
             apply record_emails_inv; [exact Hb|];
             intros e He; now apply elem_of_elements in He
         end.
  all: try match goal with
         | H : record_phones _ ?u ?t ?x ?ps (?r, ?c) = (?l, ?n) |- results_inv ?l =>
             change l with (fst (l, n)); rewrite <- H;
             now apply record_phones_inv
         end.
  all: assumption.
Qed.

Lemma store_inv_init : store_inv cfg (init cfg).
Proof.
  split; [split|]; simpl.
  - apply NoDup_nil_2.
  - intros k r H. now apply elem_of_nil in H.
  - intros r H. now apply elem_of_nil in H.
Qed.

Lemma store_inv_crawl fuel : store_inv cfg (crawl cfg w fuel (init cfg)).
Proof. exact (crawl_invariant cfg w (store_inv cfg) store_inv_step fuel _ store_inv_init). Qed.

Lemma emails_best_step st o st' e r :
  step cfg w st = Some (o, st') ->
  dict_get e (emails_best st) = Some r -> dict_get e (emails_best st') = Some r.
Proof.
  intros (url0 & depth & q & Hq & Hp & Hbody)%step_some Hg.
  loop_body_cases Hbody; simpl in *; try assumption.
  all: match goal with
       | H : record_emails _ ?u ?t ?x ?es (?b, ?c) = (?l, ?n) |- dict_get _ ?l = _ =>
           change l with (fst (l, n)); rewrite <- H;
           now apply record_emails_keeps
       end.
Qed.

Lemma emails_best_crawl fuel st e r :
  dict_get e (emails_best st) = Some r ->
  dict_get e (emails_best (crawl cfg w fuel st)) = Some r.
Proof.
  revert st. induction fuel as [|n IH]; intros st H; [exact H|].
  simpl. destruct (step cfg w st) as [[o st']|] eqn:E; [|exact H].
  apply IH. eapply emails_best_step; eauto.
Qed.

End Emails.

Lemma split_once_lower s :
  split_once "@" (str_lower s) =
  (fun ab => (str_lower (fst ab), str_lower (snd ab))) <$> split_once "@" s.
Proof.
  induction s as [|c s IH]; [reflexivity|].
  simpl. rewrite lower_ascii_at. destruct (Ascii.eqb c "@"); [reflexivity|].
  rewrite IH. now destruct (split_once "@" s) as [[a b]|].
Qed.

Lemma after_at_lower s : after_at (str_lower s) = str_lower <$> after_at s.
Proof.
  unfold after_at. rewrite split_once_lower.
  now destruct (split_once "@" s) as [[a b]|].
Qed.

Lemma normalize_email_lower m : str_lower (normalize_email m) = normalize_email m.
Proof. apply str_lower_idem. Qed.

(** Every member of [extract_emails text S] is lowercase and has an
    in-scope domain after its first [@]. *)
Lemma extract_emails_member text (S : gset string) e :
  e ∈ extract_emails text S ->
  str_lower e = e
  /\ exists loc dom,
       e = loc +:+ "@" +:+ dom /\ str_mem "@" loc = false
       /\ after_at e = Some dom
       /\ exists d, d ∈ S /\ (dom = d \/ exists p, dom = p +:+ "." +:+ d).
Proof.
  intros (m & _ & -> & Hok)%extract_emails_spec.
  split; [apply normalize_email_lower|].
  apply email_matches_allowed_spec in Hok as (dom & Hdom & Hsc).
  assert (Hl : str_lower dom = dom).
  { unfold normalize_email in Hdom. rewrite after_at_lower in Hdom.
    destruct (after_at _) as [d0|]; [|discriminate].
    injection Hdom as <-. apply str_lower_idem. }
  rewrite Hl in Hsc.
  destruct (proj1 (after_at_spec _ _) Hdom) as (loc & Hloc & Hmem).
  exists loc, dom. auto.
Qed.

Lemma best_inv_ok (S : gset string) d k r :
  best_inv S d -> (k, r) ∈ d -> r_value r = k /\ email_rec_ok S r.
Proof.
  intros [_ Hall] Hin. destruct (Hall k r Hin) as (Ht & Hv & Hd & text & He).
  split; [exact Hv|]. unfold email_rec_ok. rewrite Hv.
  destruct (extract_emails_member _ _ _ He) as (Hl & loc & dom & Hloc & Hmem & Ha & Hsc).
  split; [exact Hl|]. exists loc, dom. repeat split; try assumption.
  now rewrite Hd, Ha.
Qed.

Section Results.
Context (cfg : Config) (w : World).

Lemma main_elem fuel r :
  r ∈ main cfg w fuel <-> r ∈ finalize w (crawl cfg w fuel (init cfg)).
Proof. unfold main. now rewrite sorted_perm. Qed.

Lemma finalize_email st r :
  results_inv (results st) ->
  r ∈ finalize w st -> r_type r = "email" ->
  exists k, (k, r) ∈ emails_best st.
Proof.
  intros Hr Hin Ht. unfold finalize in Hin.
  assert (Hin' : r ∈ (results st ++ map snd (emails_best st))%list).
  { destruct (results st ++ map snd (emails_best st))%list; [|exact Hin].
    apply list_elem_of_singleton in Hin. subst r. discriminate. }
  apply elem_of_app in Hin' as [H|H].
  - apply Hr in H. congruence.
  - apply list_elem_of_In, in_map_iff in H as ([k r'] & <- & H).
    exists k. now apply list_elem_of_In.
Qed.

Lemma finalize_has_email st k r :
  (k, r) ∈ emails_best st -> r ∈ finalize w st.
Proof.
  intros Hin. unfold finalize.
  assert (H : r ∈ (results st ++ map snd (emails_best st))%list).
  { apply elem_of_app. right. apply list_elem_of_In, in_map_iff.
    exists (k, r). split; [reflexivity | now apply list_elem_of_In]. }
  destruct (results st ++ map snd (emails_best st))%list; [|exact H].
  now apply elem_of_nil in H.
Qed.

Lemma filter_email_results res :
  results_inv res -> List.filter is_email_rec res = [].
Proof.
  induction res as [|r res IH]; intros H; [reflexivity|].
  simpl. unfold is_email_rec at 1. rewrite (H r) by (apply elem_of_cons; auto).
  simpl. apply IH. intros r' Hr'. apply H, elem_of_cons. auto.
Qed.

Lemma filter_email_best S d :
  best_inv S d ->
  map r_value (List.filter is_email_rec (map snd d)) = map fst d.
Proof.
  intros [_ Hall]. induction d as [|[k r] d IH]; [reflexivity|].
  destruct (Hall k r) as (Ht & Hv & _); [apply elem_of_cons; auto|].
  simpl. unfold is_email_rec at 1. rewrite Ht. simpl. rewrite Hv. f_equal.
  apply IH. intros k' r' H. apply Hall, elem_of_cons. auto.
Qed.

Lemma filter_perm (f : Rec -> bool) l l' :
  l ≡ₚ l' -> List.filter f l ≡ₚ List.filter f l'.
Proof.
  induction 1 as [|x l l' _ IH|x y l|l l' l'' _ IH1 _ IH2]; simpl.
  - reflexivity.
  - destruct (f x); [now rewrite IH | exact IH].
  - destruct (f x), (f y); try reflexivity. apply Permutation_swap.
  - now rewrite IH1.
Qed.

Lemma email_values_nodup fuel :
  NoDup (map r_value (List.filter is_email_rec (main cfg w fuel))).
Proof.
  destruct (store_inv_crawl cfg w fuel) as [Hb Hr].
  set (st := crawl cfg w fuel (init cfg)) in *.
  assert (Hp : map r_value (List.filter is_email_rec (main cfg w fuel))
               ≡ₚ map r_value (List.filter is_email_rec (finalize w st))).
  { apply Permutation_map, filter_perm, sorted_perm. }
  rewrite Hp. unfold finalize.
  destruct (results st ++ map snd (emails_best st))%list eqn:E.
  - simpl. apply NoDup_nil_2.
  - rewrite <- E, List.filter_app, (filter_email_results _ Hr). simpl.
    rewrite (filter_email_best _ _ Hb). apply Hb.
Qed.

(** [C6] Email deduplication is first-seen-wins.  Recording an email
    that already has a record leaves the dictionary unchanged, whatever
    the new record says; recording an absent email stores the record it
    comes with; a record, once stored, is the record of that email in
    every later state of the crawl and is among the rows written; and
    the rows written carry at most one email record per value. *)
Theorem first_seen_wins :
  (forall e r r' d, dict_get e d = Some r -> record_email e r' d = d)
  /\ (forall e r d, dict_get e d = None -> dict_get e (record_email e r d) = Some r)
  /\ (forall n m e r,
         dict_get e (emails_best (crawl cfg w n (init cfg))) = Some r ->
         dict_get e (emails_best (crawl cfg w (n + m) (init cfg))) = Some r
         /\ r ∈ main cfg w (n + m))
  /\ (forall fuel, NoDup (map r_value (List.filter is_email_rec (main cfg w fuel)))).
Proof.
  split; [|split; [|split]].
  - apply record_email_present.
  - apply record_email_absent.
  - intros n m e r H.
    assert (H' : dict_get e (emails_best (crawl cfg w (n + m) (init cfg))) = Some r)
      by (rewrite crawl_add; now apply emails_best_crawl).
    split; [exact H'|].
    apply main_elem. eapply finalize_has_email, dict_get_elem, H'.
  - apply email_values_nodup.
Qed.

(** [C10] Every email record in the dictionary of a state the crawl
    reaches, and every email row written, has a lowercase value, a
    domain field equal to the text after the first [@] of the value,
    and that domain equals a scope entry or ends with a dot followed by
    a scope entry; this holds for every configuration, with external
    link-following on or off. *)
Theorem emails_in_scope :
  (forall fuel k r,
      (k, r) ∈ emails_best (crawl cfg w fuel (init cfg)) ->
      r_value r = k /\ email_rec_ok (allowed cfg) r)
  /\ (forall fuel r,
         r ∈ main cfg w fuel -> r_type r = "email" ->
         email_rec_ok (allowed cfg) r).
Proof.
  split.
  - intros fuel k r Hin.
    destruct (store_inv_crawl cfg w fuel) as [Hb _].
    exact (best_inv_ok _ _ _ _ Hb Hin).
  - intros fuel r Hin Ht.
    destruct (store_inv_crawl cfg w fuel) as [Hb Hr].
    apply main_elem in Hin.
    destruct (finalize_email _ _ Hr Hin Ht) as [k Hk].
    exact (proj2 (best_inv_ok _ _ _ _ Hb Hk)).
Qed.

End Results.

Lemma gset_mem_decide (x : string) (X : gset string) :
  bool_decide (x ∈ X) = true -> x ∈ X.
Proof. apply bool_decide_eq_true_1. Qed.

Lemma fetch_at_most_once_witness :
  let st := with_queue [("http://a.example.com", 1)]
              (crawl ex_cfg ex_world 1 (init ex_cfg)) in
  "http://a.example.com" ∈ seen_urls st
  /\ step ex_cfg ex_world st = Some (SkipSeen, with_queue [] st).
Proof.
  intros st.
  assert (Hs : "http://a.example.com" ∈ seen_urls st)
    by (apply gset_mem_decide; vm_compute; reflexivity).
  split; [exact Hs|].
  apply (proj2 (proj2 (proj2 (fetch_at_most_once ex_cfg ex_world)))
           st "http://a.example.com" 1 []); [reflexivity | vm_compute; reflexivity | exact Hs].
Defined.

Lemma first_seen_wins_witness :
  let r := email_rec "jane@example.com" "http://a.example.com" "Contact"
             "contact: Jane <Jane@Example.com> or eve@evil.org info@example.com"
             "2024-01-01T00:00:01Z" in
  dict_get "jane@example.com" (emails_best (crawl ex_cfg ex_world 1 (init ex_cfg))) = Some r
  /\ "jane@example.com"
       ∈ extract_emails "write to jane@example.com" (allowed ex_cfg)
  /\ dict_get "jane@example.com"
       (emails_best (crawl ex_cfg ex_world (1 + 1) (init ex_cfg))) = Some r
  /\ r ∈ main ex_cfg ex_world (1 + 1).
Proof.
  intros r.
  assert (H : dict_get "jane@example.com"
                (emails_best (crawl ex_cfg ex_world 1 (init ex_cfg))) = Some r)
    by (vm_compute; reflexivity).
  split; [exact H|]. split.
  - apply gset_mem_decide. vm_compute. reflexivity.
  - exact (proj1 (proj2 (proj2 (first_seen_wins ex_cfg ex_world))) 1%nat 1%nat _ _ H).
Defined.

Lemma emails_in_scope_witness :
  let r := email_rec "info@example.com" "http://a.example.com" "Contact"
             "contact: Jane <Jane@Example.com> or eve@evil.org info@example.com"
             "2024-01-01T00:00:00Z" in
  ("info@example.com", r) ∈ emails_best (crawl ex_cfg ex_world 2 (init ex_cfg))
  /\ r_value r = "info@example.com" /\ email_rec_ok (allowed ex_cfg) r.
Proof.
  intros r.
  assert (H : ("info@example.com", r)
                ∈ emails_best (crawl ex_cfg ex_world 2 (init ex_cfg))) by list_mem.
  split; [exact H|].
  exact (proj1 (emails_in_scope ex_cfg ex_world) 2%nat _ _ H).
Defined.

(** ** Termination of the crawl loop *)

Section Termination.
Context (cfg : Config) (w : World).

(** Every turn of the loop either counts a page or shortens the queue. *)
Lemma step_measure st o st' :
  step cfg w st = Some (o, st') ->
  (pages st' = pages st + 1 /\ pages st < max_pages cfg)
  \/ (pages st' = pages st
      /\ (List.length (queue st') < List.length (queue st))%nat).
Proof.
  intros (url0 & depth & q & Hq & Hp & Hb)%step_some.
  rewrite Hq. loop_body_cases Hb; simpl; auto; right; split; auto; lia.
Qed.



(** The page budget is respected. *)
Lemma pages_bound fuel :
  pages (crawl cfg w fuel (init cfg)) <= Z.max 0 (max_pages cfg).
Proof.
  apply (crawl_invariant cfg w (fun st => pages st <= Z.max 0 (max_pages cfg))).
  - intros st o st' Hst Hs. destruct (step_measure _ _ _ Hs) as [[-> ?]|[-> _]]; lia.
  - simpl. lia.
Qed.

End Termination.

(** * Further properties of the code *)

(** ** What one iteration changes *)

Section StepEffect.
Context (cfg : Config) (w : World).

(** [X1] An iteration that ends at a [continue] leaves the queue (minus
    the popped item), the page counter, both result collections and the
    clock as they were, and the popped URL is visited afterwards; an
    iteration that runs to the end counts exactly one page. *)
Theorem skipped_iteration_effect st url0 depth q o st' :
  queue st = (url0, depth) :: q ->
  step cfg w st = Some (o, st') ->
  (o <> Processed ->
   queue st' = q /\ pages st' = pages st /\ results st' = results st
   /\ emails_best st' = emails_best st /\ clock st' = clock st
   /\ url0 ∈ seen_urls st')
  /\ (o = Processed -> pages st' = pages st + 1)
  /\ (o = SkipSeen \/ o = SkipRobots -> requests st' = requests st).
Proof.
  intros Hq (u & d & q' & Hq' & _ & Hb)%step_some.
  rewrite Hq in Hq'. injection Hq' as <- <- <-.
  loop_body_cases Hb; simpl;
    (split; [intros Hne; try congruence; repeat split; try reflexivity; set_solver|]);
    (split; [intros; congruence || reflexivity|]);
    intros [?|?]; congruence.
Qed.

(** [X2] A response that is not HTML never adds a link to the queue:
    PDFs are read but not followed. *)
Theorem non_html_never_enqueues st url0 depth q o st' :
  queue st = (url0, depth) :: q ->
  step cfg w st = Some (o, st') ->
  (forall resp, http_get w (List.length (requests st)) url0 = GetOk resp ->
                is_content_html (str_lower (content_type resp)) = false) ->
  queue st' = q.
Proof.
  intros Hq (u & d & q' & Hq' & _ & Hb)%step_some Hct.
  rewrite Hq in Hq'. injection Hq' as <- <- <-.
  loop_body_cases Hb; simpl in *; try reflexivity.
  all: match goal with
       | Hg : http_get _ _ _ = GetOk ?r, Hd : dispatch _ _ ?r _ = Some (_, _, ?l) |- _ =>
           specialize (Hct r Hg); unfold dispatch in Hd; rewrite Hct in Hd;
           destruct (include_pdfs cfg && is_content_pdf (str_lower (content_type r)));
           [injection Hd as <- <- <- | discriminate]
       end.
  all: unfold filtered_links; destruct (depth <? max_depth cfg); simpl; apply app_nil_r.
Qed.

(** [X3] The page counter never exceeds the number of requests made,
    which never exceeds the number of visited URLs. *)
Theorem pages_requests_seen fuel :
  let st := crawl cfg w fuel (init cfg) in
  pages st <= Z.of_nat (List.length (requests st))
  /\ (List.length (requests st) <= size (seen_urls st))%nat.
Proof.
  split.
  - apply (crawl_invariant cfg w
             (fun st => pages st <= Z.of_nat (List.length (requests st)))).
    + intros st o st' Hst (url0 & depth & q & Hq & _ & Hb)%step_some.
      loop_body_cases Hb; simpl in *; rewrite ?length_app; simpl; lia.
    + simpl. lia.
  - assert (Hinv : requests_inv (crawl cfg w fuel (init cfg))).
    { apply (crawl_invariant cfg w requests_inv (requests_inv_step cfg w)).
      split; [apply NoDup_nil_2 | intros u Hu; now apply elem_of_nil in Hu]. }
    destruct Hinv as [Hnd Hsub].
    rewrite <- (size_list_to_set (C := gset string) _ Hnd).
    apply subseteq_size. intros u Hu. apply Hsub. now apply elem_of_list_to_set in Hu.
Qed.

(** [X4] The page budget: the number of counted pages never exceeds
    [max_pages] (or 0, if that is negative). *)
Theorem page_budget fuel :
  pages (crawl cfg w fuel (init cfg)) <= Z.max 0 (max_pages cfg).
Proof.
  apply (crawl_invariant cfg w (fun st => pages st <= Z.max 0 (max_pages cfg))).
  - intros st o st' Hst Hs. destruct (step_measure _ _ _ _ _ Hs) as [[-> ?]|[-> _]]; lia.
  - simpl. lia.
Qed.


End StepEffect.

Lemma skipped_iteration_effect_witness :
  let st := init ex_cfg in
  let st' := crawl ex_cfg ex_world_created 1 st in
  queue st' = [] /\ pages st' = pages st /\ results st' = results st
  /\ emails_best st' = emails_best st /\ clock st' = clock st
  /\ "http://a.example.com" ∈ seen_urls st'.
Proof.
  intros st st'.
  assert (Hq : queue st = [("http://a.example.com", 0)]) by (vm_compute; reflexivity).
  assert (Hs : step ex_cfg ex_world_created st = Some (SkipStatus, st'))
    by (vm_compute; reflexivity).
  apply (proj1 (skipped_iteration_effect ex_cfg ex_world_created _ _ _ _ _ _ Hq Hs)).
  discriminate.
Defined.

Lemma non_html_never_enqueues_witness :
  let st := init ex_cfg_pdf in
  exists st', step ex_cfg_pdf ex_world_pdf st = Some (Processed, st') /\ queue st' = [].
Proof.
  intros st.
  pose (st' := crawl ex_cfg_pdf ex_world_pdf 1 st).
  assert (Hq : queue st = [("http://a.example.com/doc.pdf", 0)]) by (vm_compute; reflexivity).
  assert (Hs : step ex_cfg_pdf ex_world_pdf st = Some (Processed, st'))
    by (vm_compute; reflexivity).
  exists st'. split; [exact Hs|].
  apply (non_html_never_enqueues ex_cfg_pdf ex_world_pdf _ _ _ _ _ _ Hq Hs).
  intros resp Hg. vm_compute in Hg.
  injection Hg as <-. vm_compute. reflexivity.
Defined.

(** ** The frontier *)

Section Frontier.
Context (cfg : Config) (w : World).





Lemma bfs_inv_step st o st' :
  bfs_inv st -> step cfg w st = Some (o, st') -> bfs_inv st'.
Proof.
  intros (d & l1 & l2 & Hq & H1 & H2) Hstep.
  destruct (step_some _ _ _ _ _ Hstep) as (url0 & depth & q & Hq0 & _ & _).
  destruct (step_queue _ _ _ _ _ _ _ _ Hq0 Hstep) as (links & Hq' & _).
  rewrite Hq0 in Hq. destruct l1 as [|x l1].
  - simpl in Hq. subst l2.
    exists (d + 1), q, (map (fun nxt => (nxt, depth + 1)) links). repeat split.
    + exact Hq'.
    + intros x Hx. apply H2, elem_of_cons. auto.
    + intros x Hx. apply list_elem_of_In, in_map_iff in Hx as (nxt & <- & _).
      simpl. rewrite <- (H2 (url0, depth)) by (apply elem_of_cons; auto). reflexivity.
  - injection Hq as <- ->.
    exists d, l1, (l2 ++ map (fun nxt => (nxt, depth + 1)) links)%list. repeat split.
    + now rewrite Hq', app_assoc.
    + intros y Hy. apply H1, elem_of_cons. auto.
    + intros y [Hy|Hy]%elem_of_app; [now apply H2|].
      apply list_elem_of_In, in_map_iff in Hy as (nxt & <- & _).
      simpl. rewrite <- (H1 (url0, depth)) by (apply elem_of_cons; auto). reflexivity.
Qed.

(** [X7] Breadth-first order: in every state the crawl reaches, the
    queue is a run of items of one depth [d] followed by a run of items
    of depth [d + 1]. *)
Theorem breadth_first_frontier fuel :
  exists (d : Z) (l1 l2 : list (string * Z)),
    queue (crawl cfg w fuel (init cfg)) = (l1 ++ l2)%list
    /\ (forall x, x ∈ l1 -> snd x = d)
    /\ (forall x, x ∈ l2 -> snd x = d + 1).
Proof.
  apply (crawl_invariant cfg w bfs_inv bfs_inv_step fuel).
  exists 0, (queue (init cfg)), []. repeat split.
  - now rewrite app_nil_r.
  - intros x Hx. simpl in Hx.
    now apply list_elem_of_In, in_map_iff in Hx as (u & <- & _).
  - intros x Hx. now apply elem_of_nil in Hx.
Qed.

End Frontier.


(** ** The robots cache *)

Lemma can_fetch_of_cached (w : World) (cache : gmap string RobotFileParser) url ua rp :
  negb (is_http_scheme (scheme (urlparse url))) || String.eqb (netloc (urlparse url)) ""
  = false ->
  cache !! (scheme (urlparse url) +:+ "://" +:+ netloc (urlparse url)) = Some rp ->
  can_fetch w cache url ua true = (default true (rp_can_fetch rp ua url), cache).
Proof.
  intros E Hc. unfold can_fetch, load_robots. simpl negb. cbv beta iota.
  rewrite E, Hc. now destruct (rp_can_fetch rp ua url).
Qed.

Lemma can_fetch_shape (w : World) (cache : gmap string RobotFileParser) url ua :
  (negb (is_http_scheme (scheme (urlparse url))) || String.eqb (netloc (urlparse url)) ""
   = true /\ can_fetch w cache url ua true = (false, cache))
  \/ (negb (is_http_scheme (scheme (urlparse url))) || String.eqb (netloc (urlparse url)) ""
      = false
      /\ exists rp,
          snd (can_fetch w cache url ua true)
            !! (scheme (urlparse url) +:+ "://" +:+ netloc (urlparse url)) = Some rp
          /\ fst (can_fetch w cache url ua true) = default true (rp_can_fetch rp ua url)).
Proof.
  destruct (negb (is_http_scheme (scheme (urlparse url)))
            || String.eqb (netloc (urlparse url)) "") eqn:E.
  - left. split; [reflexivity|]. unfold can_fetch. simpl negb. cbv beta iota.
    now rewrite E.
  - right. split; [reflexivity|].
    set (origin := scheme (urlparse url) +:+ "://" +:+ netloc (urlparse url)).
    destruct (cache !! origin) as [rp|] eqn:Ec.
    + exists rp. rewrite (can_fetch_of_cached w cache url ua rp E Ec). auto.
    + exists (fst (rp_read (robots_read w (origin +:+ "/robots.txt")) RobotFileParser_new)).
      unfold can_fetch, load_robots. simpl negb. cbv beta iota. fold origin.
      rewrite E, Ec.
      match goal with
      | |- context [rp_can_fetch ?r ua url] => destruct (rp_can_fetch r ua url)
      end; simpl; now rewrite lookup_insert_eq.
Qed.

(** [X8] The ruleset of an origin is loaded once: asking the gate again
    about the same URL, in whatever world, gives the same answer and
    leaves the cache as the first call left it. *)
Theorem can_fetch_cached (w w' : World) (cache : gmap string RobotFileParser) url ua :
  can_fetch w' (snd (can_fetch w cache url ua true)) url ua true
  = can_fetch w cache url ua true.
Proof.
  destruct (can_fetch_shape w cache url ua) as [[E H]|(E & rp & Hc & Hok)].
  - rewrite H. simpl. unfold can_fetch. simpl negb. cbv beta iota. now rewrite E.
  - rewrite (can_fetch_of_cached w' _ url ua rp E Hc), <- Hok.
    now destruct (can_fetch w cache url ua true).
Qed.

(** [X9] What the gate answers for an origin that is not cached yet,
    by the outcome of downloading its robots.txt: an exception denies;
    an HTTP error allows exactly for the 4xx codes other than 401 and
    403; a parsed file delegates to its rules, and an exception raised
    by the rule lookup allows. *)
Theorem can_fetch_by_outcome (w : World) (cache : gmap string RobotFileParser) url ua :
  let p := urlparse url in
  let origin := scheme p +:+ "://" +:+ netloc p in
  is_http_scheme (scheme p) = true -> netloc p <> "" ->
  cache !! origin = None ->
  fst (can_fetch w cache url ua true) =
    match robots_read w (origin +:+ "/robots.txt") with
    | ReadRaises => false
    | ReadHTTPError c => (400 <=? c) && (c <? 500) && negb (c =? 401) && negb (c =? 403)
    | ReadParsed rules => default true (rules ua url)
    end.
Proof.
  intros p origin Hs Hn Hc. unfold can_fetch. fold p. simpl negb.
  rewrite Hs. simpl. destruct (String.eqb (netloc p) "") eqn:E.
  { now apply String.eqb_eq in E. }
  unfold load_robots. fold origin. rewrite Hc.
  destruct (robots_read w (origin +:+ "/robots.txt")) as [|c|rules]; simpl.
  - reflexivity.
  - destruct (c =? 401) eqn:E1; simpl.
    { apply Z.eqb_eq in E1. subst c. reflexivity. }
    destruct (c =? 403) eqn:E2; simpl.
    { apply Z.eqb_eq in E2. subst c. reflexivity. }
    destruct ((400 <=? c) && (c <? 500)); reflexivity.
  - unfold rp_can_fetch. simpl. now destruct (rules ua url).
Qed.

Lemma can_fetch_by_outcome_witness :
  fst (can_fetch ex_world ∅ "http://a.example.com/x" "Mozilla" true) = true.
Proof.
  rewrite (can_fetch_by_outcome ex_world ∅ "http://a.example.com/x" "Mozilla");
    [reflexivity | reflexivity | discriminate | reflexivity].
Defined.

Lemma can_fetch_cache_mono (w : World) (cache : gmap string RobotFileParser)
    url ua h o rp :
  cache !! o = Some rp -> snd (can_fetch w cache url ua h) !! o = Some rp.
Proof.
  intros Ho. unfold can_fetch. destruct (negb h); [exact Ho|].
  destruct (negb (is_http_scheme (scheme (urlparse url)))
            || String.eqb (netloc (urlparse url)) ""); [exact Ho|].
  unfold load_robots.
  set (origin := scheme (urlparse url) +:+ "://" +:+ netloc (urlparse url)).
  destruct (cache !! origin) as [rp0|] eqn:Ec.
  - now destruct (rp_can_fetch rp0 ua url).
  - assert (Hne : origin <> o) by congruence.
    match goal with
    | |- context [rp_can_fetch ?r ua url] => destruct (rp_can_fetch r ua url)
    end; simpl; now rewrite lookup_insert_ne.
Qed.

Section RobotsCache.
Context (cfg : Config) (w : World).

Lemma robots_cache_step st o st' origin rp :
  step cfg w st = Some (o, st') ->
  robots_cache st !! origin = Some rp -> robots_cache st' !! origin = Some rp.
Proof.
  intros (url0 & depth & q & Hq & _ & Hb)%step_some Hc.
  loop_body_cases Hb; simpl in *; try assumption.
  all: match goal with
       | H : can_fetch ?w0 ?c ?u ?a ?h = (_, ?g) |- ?g !! _ = _ =>
           change g with (snd (true, g)) at 1 || idtac;
           replace g with (snd (can_fetch w0 c u a h)) by (now rewrite H);
           now apply can_fetch_cache_mono
       end.
Qed.

(** [X10] A ruleset, once cached for an origin, is the ruleset of that
    origin for the rest of the crawl. *)
Theorem robots_cache_persists fuel st origin rp :
  robots_cache st !! origin = Some rp ->
  robots_cache (crawl cfg w fuel st) !! origin = Some rp.
Proof.
  revert st. induction fuel as [|n IH]; intros st H; [exact H|].
  simpl. destruct (step cfg w st) as [[o st']|] eqn:E; [|exact H].
  apply IH. eapply robots_cache_step; eauto.
Qed.

(** [X11] With [--honor-robots false] no robots.txt is ever loaded and no
    iteration ends at the robots check. *)
Theorem no_robots_when_disabled :
  honor cfg = false ->
  (forall fuel, robots_cache (crawl cfg w fuel (init cfg)) = ∅)
  /\ (forall st o st', step cfg w st = Some (o, st') -> o <> SkipRobots).
Proof.
  intros Hh. split.
  - intros fuel.
    apply (crawl_invariant cfg w (fun st => robots_cache st = ∅)); [|reflexivity].
    intros st o st' Hst (url0 & depth & q & Hq & _ & Hb)%step_some.
    loop_body_cases Hb; simpl in *; congruence.
  - intros st o st' (url0 & depth & q & Hq & _ & Hb)%step_some.
    loop_body_cases Hb; congruence.
Qed.

End RobotsCache.

Lemma robots_cache_persists_witness :
  let st := crawl ex_cfg ex_world 1 (init ex_cfg) in
  exists rp, robots_cache st !! "http://a.example.com" = Some rp
             /\ allow_all rp = true
             /\ robots_cache (crawl ex_cfg ex_world 1 st) !! "http://a.example.com" = Some rp.
Proof.
  intros st.
  destruct (robots_cache st !! "http://a.example.com") as [rp|] eqn:E;
    [|vm_compute in E; discriminate].
  exists rp. split; [reflexivity|]. split.
  - vm_compute in E. injection E as <-. reflexivity.
  - exact (robots_cache_persists ex_cfg ex_world 1 st _ _ E).
Defined.

Lemma no_robots_when_disabled_witness :
  honor ex_cfg_pdf = false
  /\ robots_cache (crawl ex_cfg_pdf ex_world_pdf 3 (init ex_cfg_pdf)) = ∅.
Proof.
  assert (H : honor ex_cfg_pdf = false) by reflexivity.
  split; [exact H|].
  exact (proj1 (no_robots_when_disabled ex_cfg_pdf ex_world_pdf H) 3%nat).
Defined.

(** ** The order of the written rows *)

Lemma key_leb_total (a b : Rec) : key_leb a b = false -> key_leb b a = true.
Proof.
  unfold key_leb.
  intros [H1 H2]%orb_false_iff. apply orb_true_iff.
  destruct (type_rank (r_type b) <? type_rank (r_type a)) eqn:E; [now left | right].
  apply Z.ltb_ge in H1, E.
  assert (Heq : type_rank (r_type a) = type_rank (r_type b)) by lia.
  rewrite Heq, Z.eqb_refl in *. simpl in *.
  destruct (String.leb_total (r_value a) (r_value b)) as [H|H]; congruence.
Qed.

Lemma insert_sorted_Sorted x l : Sorted key_le l -> Sorted key_le (insert_sorted x l).
Proof.
  induction 1 as [|y l Hs IH Hd]; simpl.
  - repeat constructor.
  - destruct (key_leb y x) eqn:E.
    + constructor; [exact IH|].
      destruct l as [|z l]; simpl.
      * constructor. exact E.
      * destruct (key_leb z x); constructor; [now inversion Hd | exact E].
    + constructor; [now constructor|]. constructor. now apply key_leb_total.
Qed.

Lemma sorted_fold_Sorted l acc :
  Sorted key_le acc -> Sorted key_le (foldl (fun acc x => insert_sorted x acc) acc l).
Proof.
  revert acc. induction l as [|x l IH]; intros acc H; [exact H|].
  simpl. apply IH. now apply insert_sorted_Sorted.
Qed.

(** [X12] The rows written are the finalized records rearranged in
    ascending order of the key (rank of the type, then value): emails
    before phones before the sentinel, each group by value. *)
Theorem main_sorted (cfg : Config) (w : World) fuel :
  Sorted key_le (main cfg w fuel)
  /\ main cfg w fuel ≡ₚ finalize w (crawl cfg w fuel (init cfg)).
Proof.
  split; [|apply sorted_perm].
  unfold main, sorted. apply sorted_fold_Sorted. constructor.
Qed.

(** ** Phone extraction *)

Lemma str_filter_filter (p q : ascii -> bool) s :
  (forall c, q c = true -> p c = true) ->
  str_filter q (str_filter p s) = str_filter q s.
Proof.
  intros Hqp. induction s as [|c s IH]; [reflexivity|].
  simpl. destruct (p c) eqn:Ep; simpl.
  - now rewrite IH.
  - rewrite IH. destruct (q c) eqn:Eq; [|reflexivity].
    apply Hqp in Eq. congruence.
Qed.

Lemma extract_phones_fold l (acc : gset string) p :
  p ∈ foldl (fun cleaned p =>
               let p2 := str_filter (fun c => is_ascii_digit c || Ascii.eqb c "+") p in
               let digits := str_filter is_ascii_digit p2 in
               if (8 <=? String.length digits)%nat then {[ p ]} ∪ cleaned else cleaned)
            acc l
  <-> p ∈ acc \/ (p ∈ l /\ (8 <= phone_digits p)%nat).
Proof.
  unfold phone_digits. revert acc. induction l as [|x l IH]; intros acc; cbn [foldl].
  - split; [auto|]. intros [H|[H _]]; [exact H | now apply elem_of_nil in H].
  - rewrite IH, elem_of_cons.
    rewrite (str_filter_filter _ is_ascii_digit x)
      by (intros c Hc; now rewrite Hc).
    destruct (8 <=? String.length (str_filter is_ascii_digit x))%nat eqn:E.
    + apply Nat.leb_le in E. cbv iota. rewrite elem_of_union, elem_of_singleton.
      split; intros H; intuition (subst; auto).
    + apply Nat.leb_gt in E. cbv iota.
      split; intros H; intuition (subst; auto; lia).
Qed.

(** [X13] [extract_phones] returns exactly the whitespace-stripped
    candidates of the phone pattern that contain at least 8 decimal
    digits, in their raw form; an empty text gives nothing. *)
Theorem extract_phones_spec (w : World) text p :
  p ∈ extract_phones w text <->
  text <> ""
  /\ (exists x, x ∈ PHONE_RE_findall w text /\ p = str_strip x)
  /\ (8 <= phone_digits p)%nat.
Proof.
  unfold extract_phones. destruct (String.eqb text "") eqn:E.
  - apply String.eqb_eq in E. split; [intros H; now apply not_elem_of_empty in H | tauto].
  - apply String.eqb_neq in E. rewrite extract_phones_fold.
    rewrite elem_of_elements, elem_of_list_to_set.
    rewrite list_elem_of_In, in_map_iff.
    split.
    + intros [H|[(x & <- & Hx) H8]]; [now apply not_elem_of_empty in H|].
      repeat split; auto. exists x. split; [now apply list_elem_of_In | reflexivity].
    + intros (_ & (x & Hx & ->) & H8). right. split; [|exact H8].
      exists x. split; [reflexivity | now apply list_elem_of_In].
Qed.

(** ** Snippets and titles *)

Lemma str_rev_app_length (a b : string) :
  String.length (String.rev_app a b) = (String.length a + String.length b)%nat.
Proof.
  revert b. induction a as [|c a IH]; intros b; [reflexivity|].
  simpl. rewrite IH. simpl. lia.
Qed.

Lemma str_rev_length (a : string) : String.length (String.rev a) = String.length a.
Proof. unfold String.rev. rewrite str_rev_app_length. simpl. lia. Qed.

Lemma str_join_cons_length sep a l :
  (String.length (str_join sep (a :: l))
   <= String.length a + String.length sep + String.length (str_join sep l))%nat.
Proof.
  destruct l as [|b l]; simpl; [lia|].
  rewrite !str_length_app. lia.
Qed.

Lemma split_ws_go_length cur s :
  (String.length (str_join " " (split_ws_go cur s))
   <= String.length s + String.length (default "" cur))%nat.
Proof.
  revert cur. induction s as [|c s IH]; intros cur.
  - destruct cur as [v|]; simpl; [rewrite str_rev_length|]; lia.
  - cbn [split_ws_go]. destruct (is_space c).
    + destruct cur as [v|].
      * etransitivity; [apply str_join_cons_length|].
        rewrite str_rev_length. specialize (IH None). simpl in *. lia.
      * specialize (IH None). simpl in *. lia.
    + specialize (IH (Some (String c (default "" cur)))). simpl in *. lia.
Qed.

Lemma str_take_length n s : (String.length (str_take n s) <= n)%nat.
Proof.
  revert s. induction n as [|n IH]; intros [|c s]; simpl; try lia.
  specialize (IH s). lia.
Qed.

Lemma snippet_around_length text needle :
  (String.length (snippet_around text needle) <= String.length needle + SNIP_LEN)%nat.
Proof.
  unfold snippet_around. destruct (String.eqb text ""); [simpl; lia|].
  destruct (str_find (str_lower needle) (str_lower text)) as [i|]; [|simpl; lia].
  cbv zeta. unfold str_split_ws.
  etransitivity; [apply split_ws_go_length|].
  etransitivity; [apply Nat.add_le_mono_r, str_take_length|].
  unfold SNIP_LEN. simpl default. simpl String.length.
  change (160 / 2)%nat with 80%nat. lia.
Qed.

(** [X14] A snippet is never longer than the needle plus [SNIP_LEN]
    characters, and it is empty when the text is empty or does not
    contain the needle (ignoring case). *)
Theorem snippet_around_bound text needle :
  (String.length (snippet_around text needle) <= String.length needle + SNIP_LEN)%nat
  /\ (str_find (str_lower needle) (str_lower text) = None ->
      snippet_around text needle = "")
  /\ snippet_around "" needle = "".
Proof.
  split; [|split].
  - apply snippet_around_length.
  - intros H. unfold snippet_around. rewrite H. now destruct (String.eqb text "").
  - reflexivity.
Qed.

Lemma snippet_around_bound_witness :
  str_find (str_lower "bob@example.com") (str_lower "write to jane@example.com") = None
  /\ snippet_around "write to jane@example.com" "bob@example.com" = "".
Proof.
  assert (H : str_find (str_lower "bob@example.com")
                (str_lower "write to jane@example.com") = None) by reflexivity.
  split; [exact H|].
  exact (proj1 (proj2 (snippet_around_bound _ _)) H).
Defined.

Lemma title_of_length soup : (String.length (title_of soup) <= 140)%nat.
Proof. apply str_take_length. Qed.

Lemma source_type_of_cases title :
  (source_type_of title = "pdf" /\ title = "(PDF)")
  \/ (source_type_of title = "html" /\ title <> "(PDF)").
Proof.
  unfold source_type_of. destruct (String.eqb title "(PDF)") eqn:E.
  - left. split; [reflexivity | now apply String.eqb_eq].
  - right. split; [reflexivity | now apply String.eqb_neq].
Qed.

Lemma email_rec_row_ok e url title text now :
  (String.length title <= 140)%nat -> row_ok (email_rec e url title text now).
Proof.
  intros Ht. repeat split; simpl.
  - now left.
  - exact Ht.
  - apply source_type_of_cases.
  - apply snippet_around_length.
Qed.

Lemma phone_rec_row_ok p url title text now :
  (String.length title <= 140)%nat -> row_ok (phone_rec p url title text now).
Proof.
  intros Ht. repeat split; simpl.
  - now right.
  - exact Ht.
  - apply source_type_of_cases.
  - apply snippet_around_length.
Qed.

Section Rows.
Context (cfg : Config) (w : World).

Lemma record_emails_rows url title text es best clk :
  (String.length title <= 140)%nat ->
  (forall k r, (k, r) ∈ best -> row_ok r) ->
  forall k r, (k, r) ∈ fst (record_emails w url title text es (best, clk)) -> row_ok r.
Proof.
  intros Ht. revert best clk. induction es as [|e es IH]; intros best clk Hb; [exact Hb|].
  rewrite record_emails_cons. apply IH.
  intros k r. unfold record_email. destruct (dict_get e best); [apply Hb|].
  intros [Hin|Hin]%elem_of_app; [now apply (Hb k)|].
  apply list_elem_of_singleton in Hin. injection Hin as -> ->.
  now apply email_rec_row_ok.
Qed.

Lemma record_phones_rows url title text ps res clk :
  (String.length title <= 140)%nat ->
  (forall r, r ∈ res -> row_ok r) ->
  forall r, r ∈ fst (record_phones w url title text ps (res, clk)) -> row_ok r.
Proof.
  intros Ht. revert res clk. induction ps as [|p ps IH]; intros res clk Hr; [exact Hr|].
  rewrite record_phones_cons. apply IH.
  intros r [Hin|Hin]%elem_of_app; [now apply Hr|].
  apply list_elem_of_singleton in Hin. subst r. now apply phone_rec_row_ok.
Qed.

Lemma dispatch_title resp depth title text links :
  dispatch cfg w resp depth = Some (title, text, links) ->
  (String.length title <= 140)%nat.
Proof.
  unfold dispatch. destruct (is_content_html _).
  - unfold handle_html. intros [= <- _ _]. apply title_of_length.
  - destruct (include_pdfs cfg && is_content_pdf _); [|discriminate].
    intros [= <- _ _]. simpl. lia.
Qed.

Lemma rows_inv_step st o st' :
  rows_inv st -> step cfg w st = Some (o, st') -> rows_inv st'.
Proof.
  intros [Hb Hr] (url0 & depth & q & Hq & _ & Hbody)%step_some.
  loop_body_cases Hbody; simpl in *; try (now split).
  all: match goal with
       | Hd : dispatch _ _ _ _ = Some (?t, _, _) |- _ =>
           pose proof (dispatch_title _ _ _ _ _ Hd) as Ht
       end.
  all: split; simpl.
  all: try match goal with
         | H : record_emails _ ?u ?t ?x ?es (?b, ?c) = (?l, ?n)
           |- forall k r, (k, r) ∈ ?l -> _ =>
             change l with (fst (l, n)); rewrite <- H;
             now apply record_emails_rows
         end.
  all: try match goal with
         | H : record_phones _ ?u ?t ?x ?ps (?r, ?c) = (?l, ?n)
           |- forall r0, r0 ∈ ?l -> _ =>
             change l with (fst (l, n)); rewrite <- H;
             now apply record_phones_rows
         end.
  all: assumption.
Qed.

(** [X15] Every row written is either the lone [no_hits] sentinel or an
    email or phone row whose page title has at most 140 characters,
    whose source type is [pdf] exactly when that title is the PDF marker
    and [html] otherwise, whose snippet is at most [SNIP_LEN] characters
    longer than its value, and whose domain is empty if it is a phone. *)
Theorem rows_well_formed fuel r :
  r ∈ main cfg w fuel ->
  (main cfg w fuel = [r] /\ r_type r = "info" /\ r_value r = "no_hits")
  \/ row_ok r.
Proof.
  intros Hin.
  assert (Hinv : rows_inv (crawl cfg w fuel (init cfg))).
  { apply (crawl_invariant cfg w rows_inv rows_inv_step).
    split; simpl; [intros k r0 H | intros r0 H]; now apply elem_of_nil in H. }
  destruct Hinv as [Hb Hr].
  assert (Hp := sorted_perm (finalize w (crawl cfg w fuel (init cfg)))).
  fold (main cfg w fuel) in Hp.
  unfold finalize in Hp.
  destruct (results (crawl cfg w fuel (init cfg))
            ++ map snd (emails_best (crawl cfg w fuel (init cfg))))%list
    as [|r0 l] eqn:E.
  - left. apply Permutation_sym, Permutation_length_1_inv in Hp.
    rewrite Hp in Hin |- *. apply list_elem_of_singleton in Hin. now subst r.
  - right. rewrite Hp, <- E in Hin. apply elem_of_app in Hin as [H|H].
    + now apply Hr.
    + apply list_elem_of_In, in_map_iff in H as ([k r'] & <- & H).
      apply (Hb k). now apply list_elem_of_In.
Qed.

End Rows.

Lemma rows_well_formed_witness :
  let r := email_rec "info@example.com" "http://a.example.com" "Contact"
             "contact: Jane <Jane@Example.com> or eve@evil.org info@example.com"
             "2024-01-01T00:00:00Z" in
  r ∈ main ex_cfg ex_world 2 /\ row_ok r.
Proof.
  intros r.
  assert (H : r ∈ main ex_cfg ex_world 2) by list_mem.
  split; [exact H|].
  destruct (rows_well_formed ex_cfg ex_world 2 r H) as [(_ & Ht & _)|Hok];
    [discriminate Ht | exact Hok].
Defined.

(** ** The scope set and the scope tests *)

Lemma is_space_lower c : is_space (lower_ascii c) = is_space c.
Proof. all_ascii c. Qed.

(** [X16] The scope set built from [--domains] holds exactly the
    lowercased forms of the arguments that are not blank; in particular
    every member is lowercase, as the email filter expects. *)
Theorem allowed_spec (cfg : Config) d :
  (d ∈ allowed cfg <->
   exists d0, d0 ∈ domains cfg /\ str_strip d0 <> "" /\ d = str_lower d0)
  /\ (d ∈ allowed cfg -> str_lower d = d).
Proof.
  assert (H : d ∈ allowed cfg <->
              exists d0, d0 ∈ domains cfg /\ str_strip d0 <> "" /\ d = str_lower d0).
  { unfold allowed. rewrite elem_of_list_to_set, list_elem_of_In, in_map_iff. split.
    - intros (d0 & <- & Hd0). apply filter_In in Hd0 as [Hin Hne].
      exists d0. repeat split; [now apply list_elem_of_In|].
      apply negb_true_iff, String.eqb_neq in Hne. exact Hne.
    - intros (d0 & Hin & Hne & ->). exists d0. split; [reflexivity|].
      apply filter_In. split; [now apply list_elem_of_In|].
      now apply negb_true_iff, String.eqb_neq. }
  split; [exact H|].
  intros (d0 & _ & _ & ->)%H. apply str_lower_idem.
Qed.

Lemma allowed_spec_witness :
  "example.com" ∈ allowed ex_cfg /\ str_lower "example.com" = "example.com".
Proof.
  assert (H : "example.com" ∈ allowed ex_cfg)
    by (apply gset_mem_decide; vm_compute; reflexivity).
  split; [exact H|]. exact (proj2 (allowed_spec ex_cfg _) H).
Defined.

(** [X17] Widening the scope never loses an email, and an empty scope
    extracts nothing. *)
Theorem extract_emails_mono text (S S' : gset string) :
  (S ⊆ S' -> extract_emails text S ⊆ extract_emails text S')
  /\ extract_emails text ∅ = ∅.
Proof.
  split.
  - intros Hsub e (m & Hm & He & Hok)%extract_emails_spec.
    apply extract_emails_spec. exists m. repeat split; try assumption.
    apply email_matches_allowed_spec in Hok as (dom & Hdom & d & Hd & H).
    apply email_matches_allowed_spec. exists dom. split; [exact Hdom|].
    exists d. split; [now apply Hsub | exact H].
  - apply set_eq. intros e. split; [|intros H; now apply not_elem_of_empty in H].
    intros (m & _ & _ & Hok)%extract_emails_spec.
    apply email_matches_allowed_spec in Hok as (dom & _ & d & Hd & _).
    exact Hd.
Qed.

Lemma extract_emails_mono_witness :
  extract_emails "a@x.org b@y.org" {[ "x.org" ]}
    ⊆ extract_emails "a@x.org b@y.org" ({[ "x.org" ]} ∪ {[ "y.org" ]}).
Proof.
  apply (proj1 (extract_emails_mono _ _ _)). apply union_subseteq_l.
Defined.

(** [X18] Both scope tests ignore the case of what they test: the host
    of a link and the address of an email. *)
Theorem scope_tests_ignore_case (S : gset string) s :
  domain_allowed (str_lower s) S = domain_allowed s S
  /\ email_matches_allowed (str_lower s) S = email_matches_allowed s S.
Proof.
  split.
  - unfold domain_allowed. now rewrite str_lower_idem.
  - unfold email_matches_allowed. rewrite after_at_lower.
    destruct (after_at s) as [d|]; simpl; [|reflexivity].
    now rewrite str_lower_idem.
Qed.

(** ** What the email pattern finds *)

Lemma str_mem_app c (a b : string) : str_mem c (a +:+ b) = str_mem c a || str_mem c b.
Proof.
  induction a as [|x a IH]; [reflexivity|].
  rewrite str_app_cons. simpl. rewrite IH. now destruct (Ascii.eqb c x).
Qed.

Lemma match_at_prefix prev s m : match_at prev s = Some m -> exists b, s = m +:+ b.
Proof.
  unfold match_at.
  destruct (boundary prev s); [|discriminate].
  destruct (span_len is_local_char s) as [|n1]; [discriminate|].
  destruct (str_drop (S n1) s) as [|a0 [|c0 h]]; try discriminate.
  destruct (Ascii.eqb a0 "@" && is_host_char c0); [|discriminate].
  destruct (host_end h) as [n|]; [|discriminate].
  intros H. exists (str_drop (S n1 + 2 + n) s).
  assert (Hm : m = str_take (S n1 + 2 + n) s) by congruence.
  rewrite Hm. symmetry. apply str_take_drop.
Qed.

Lemma finditer_go_substring prev s skip m :
  m ∈ finditer_go prev s skip -> exists a b, s = a +:+ m +:+ b.
Proof.
  revert prev skip. induction s as [|c s IH]; intros prev skip; cbn [finditer_go].
  - intros H. now apply elem_of_nil in H.
  - assert (Htail : forall p k, m ∈ finditer_go p s k ->
                                exists a b, String c s = a +:+ m +:+ b).
    { intros p k (a & b & ->)%IH. now exists (String c a), b. }
    destruct skip as [|k]; [|apply Htail].
    destruct (match_at prev (String c s)) as [m'|] eqn:Em; [|apply Htail].
    intros [->|H]%elem_of_cons; [|now apply Htail in H].
    destruct (match_at_prefix _ _ _ Em) as [b Hb]. now exists "", b.
Qed.

(** [X19] Every match of the email pattern is a piece of the text and has
    the shape local-part, [@], host, dot, top-level label of at least two
    letters; so a text without [@] yields no email in any scope. *)
Theorem finditer_matches text :
  (forall m, m ∈ EMAIL_RE_finditer text ->
             EMAIL_RE m /\ exists a b, text = a +:+ m +:+ b)
  /\ (str_mem "@" text = false -> forall S, extract_emails text S = ∅).
Proof.
  assert (H : forall m, m ∈ EMAIL_RE_finditer text ->
                        EMAIL_RE m /\ exists a b, text = a +:+ m +:+ b).
  { intros m Hm. split; [now apply (EMAIL_RE_finditer_sound text)|].
    now apply finditer_go_substring in Hm. }
  split; [exact H|].
  intros Hno S. apply set_eq. intros e.
  split; [|intros He; now apply not_elem_of_empty in He].
  intros (m & Hm & _)%extract_emails_spec.
  destruct (H m Hm) as [(loc & host & tld & -> & _) (a & b & Ht)].
  rewrite Ht in Hno. rewrite !str_mem_app in Hno. simpl in Hno.
  rewrite !orb_true_r in Hno. discriminate.
Qed.

Lemma finditer_matches_witness :
  "Jane@Example.com" ∈ EMAIL_RE_finditer "Jane <Jane@Example.com>"
  /\ EMAIL_RE "Jane@Example.com"
  /\ extract_emails "no address here" {[ "example.com" ]} = ∅.
Proof.
  assert (H : "Jane@Example.com" ∈ EMAIL_RE_finditer "Jane <Jane@Example.com>")
    by list_mem.
  split; [exact H|]. split.
  - exact (proj1 (proj1 (finditer_matches _) _ H)).
  - apply (proj2 (finditer_matches _)). reflexivity.
Defined.

(** ** Hosts without user information and port *)

Lemma after_last_none sep s : str_mem sep s = false -> after_last sep s = s.
Proof.
  destruct s as [|c s]; [reflexivity|].
  simpl. rewrite (Ascii.eqb_sym sep c).
  destruct (Ascii.eqb c sep); [discriminate|]. now intros ->.
Qed.

Lemma split_head_none sep s : str_mem sep s = false -> split_head sep s = s.
Proof.
  intros H. unfold split_head. apply split_once_none in H. now rewrite H.
Qed.

(** [X20] For a link whose netloc is non-empty and contains no user
    information, port, bracket or zone mark (none of [@], [:], the
    opening square bracket and the percent sign), the host is the
    lowercased netloc, and the scope test that [main] applies to the
    netloc agrees with the test on the host. *)
Theorem scope_test_on_plain_netloc (S : gset string) url :
  let p := urlparse url in
  netloc p <> "" ->
  str_mem "@" (netloc p) = false -> str_mem ":" (netloc p) = false ->
  str_mem "[" (netloc p) = false -> str_mem "%" (netloc p) = false ->
  hostname p = Some (str_lower (netloc p))
  /\ domain_allowed (netloc p) S = domain_allowed (str_lower (netloc p)) S.
Proof.
  intros p Hne Hat Hcolon Hbr Hpct. split.
  - unfold hostname. rewrite (after_last_none _ _ Hat).
    rewrite (proj2 (split_once_none "[" _) Hbr).
    rewrite (split_head_none _ _ Hcolon).
    destruct (String.eqb (netloc p) "") eqn:E; [now apply String.eqb_eq in E|].
    now rewrite (proj2 (split_once_none "%" _) Hpct).
  - unfold domain_allowed. now rewrite str_lower_idem.
Qed.

Lemma scope_test_on_plain_netloc_witness :
  hostname (urlparse "https://Mail.Example.com/contact") = Some "mail.example.com"
  /\ domain_allowed (netloc (urlparse "https://Mail.Example.com/contact")) {[ "example.com" ]}
     = domain_allowed "mail.example.com" {[ "example.com" ]}.
Proof.
  apply (scope_test_on_plain_netloc {[ "example.com" ]} "https://Mail.Example.com/contact");
    [discriminate | reflexivity | reflexivity | reflexivity | reflexivity].
Defined.

(** ** The User-Agent of the session *)

(** [X21] The session's User-Agent is never empty: it is the override
    if one is given and non-empty, and an entry of [UA_POOL] otherwise
    (an empty override is ignored). *)
Theorem make_client_user_agent_spec (ua : option string) (pick : nat) :
  let r := make_client_user_agent ua pick in
  r <> ""
  /\ ((exists u, ua = Some u /\ u <> "" /\ r = u)
      \/ ((ua = None \/ ua = Some "") /\ r ∈ UA_POOL)).
Proof.
  assert (Hpool : nth (pick mod List.length UA_POOL) UA_POOL "" <> ""
                  /\ nth (pick mod List.length UA_POOL) UA_POOL "" ∈ UA_POOL).
  { assert (Hlt : (pick mod List.length UA_POOL < 3)%nat)
      by (apply Nat.mod_upper_bound; discriminate).
    destruct (pick mod List.length UA_POOL)%nat as [|[|[|k]]]; [| | |lia];
      (split; [discriminate | unfold UA_POOL; simpl; repeat constructor]). }
  unfold make_client_user_agent. destruct ua as [u|].
  - destruct (String.eqb u "") eqn:E.
    + apply String.eqb_eq in E. subst u. split; [apply Hpool|].
      right. split; [now right | apply Hpool].
    + apply String.eqb_neq in E. split; [exact E|]. left. now exists u.
  - split; [apply Hpool|]. right. split; [now left | apply Hpool].
Qed.

(** ** HTML and PDF handling *)






Section PdfFailure.
Context (cfg : Config) (w : World).

Lemma record_on_empty_text url title best clk res :
  record_emails w url title "" (elements (extract_emails "" (allowed cfg))) (best, clk)
  = (best, clk)
  /\ record_phones w url title "" (elements (extract_phones w "")) (res, clk)
     = (res, clk).
Proof.
  change (extract_emails "" (allowed cfg)) with (∅ : gset string).
  change (extract_phones w "") with (∅ : gset string).
  rewrite elements_empty. now split.
Qed.

(** [X23] A PDF that cannot be read (pdfminer missing, or the extraction
    raising) still counts as a fetched page, and contributes no record
    and no link. *)
Theorem unreadable_pdf_counts url0 depth st resp o st' :
  loop_body cfg w url0 depth st = (o, st') ->
  requests st' = (requests st ++ [url0])%list ->
  http_get w (List.length (requests st)) url0 = GetOk resp ->
  status_code resp = 200 ->
  is_content_html (str_lower (content_type resp)) = false ->
  include_pdfs cfg = true ->
  is_content_pdf (str_lower (content_type resp)) = true ->
  PDF_OK w = false \/ pdf_extract_text w (resp_content resp) = None ->
  o = Processed /\ pages st' = pages st + 1 /\ queue st' = queue st
  /\ emails_best st' = emails_best st /\ results st' = results st.
Proof.
  intros Hb Hreq Hget H200 Hhtml Hinc Hpdf Hfail.
  assert (Hd : dispatch cfg w resp depth = Some ("(PDF)", "", [])).
  { unfold dispatch. rewrite Hhtml, Hinc, Hpdf. simpl. unfold handle_pdf.
    destruct Hfail as [->| ->]; [reflexivity | now destruct (PDF_OK w)]. }
  loop_body_cases Hb; simpl in Hreq;
    try (now apply app_singleton_neq in Hreq);
    try discriminate Hget.
  all: injection Hget as ->.
  all: try match goal with
         | H : (status_code _ =? 200) = false |- _ => apply Z.eqb_neq in H; congruence
         end.
  all: try match goal with
         | H : dispatch _ _ _ _ = None |- _ => rewrite Hd in H; discriminate
         end.
  all: match goal with
       | H : dispatch _ _ _ _ = Some (?a, ?b, ?c) |- _ =>
           is_var a; rewrite Hd in H; injection H as <- <- <-
       end.
  all: repeat match goal with
         | H : record_emails _ _ _ "" _ (?b, ?c) = _ |- _ =>
             rewrite (proj1 (record_on_empty_text _ _ b c [])) in H; injection H as <- <-
         | H : record_phones _ _ _ "" _ (?r, ?c) = _ |- _ =>
             rewrite (proj2 (record_on_empty_text _ _ [] c r)) in H; injection H as <- <-
         end.
  all: simpl; repeat split; try reflexivity.
  all: unfold filtered_links;
    match goal with |- context [?a <? ?b] => destruct (a <? b) end;
    simpl; apply app_nil_r.
Qed.

End PdfFailure.

Lemma unreadable_pdf_counts_witness :
  let st := with_queue [] (init ex_cfg_pdf) in
  let r := loop_body ex_cfg_pdf ex_world_pdf "http://a.example.com/doc.pdf" 0 st in
  fst r = Processed /\ pages (snd r) = pages st + 1 /\ queue (snd r) = queue st
  /\ emails_best (snd r) = emails_best st /\ results (snd r) = results st.
Proof.
  intros st r.
  apply (unreadable_pdf_counts ex_cfg_pdf ex_world_pdf
           "http://a.example.com/doc.pdf" 0 st ex_page_pdf).
  - apply surjective_pairing.
  - vm_compute. reflexivity.
  - vm_compute. reflexivity.
  - reflexivity.
  - vm_compute. reflexivity.
  - reflexivity.
  - vm_compute. reflexivity.
  - left. reflexivity.
Defined.
